(** * train.py: feature propagation, accuracy, early stopping and the
    training loop of the graph recurrent network.

    The tensor library is outside the repository; what the code relies on
    (matrix product, indexing, assignment into a slice) is written out
    on lists.  Floating-point scalars are kept abstract in the tensor part
    (a type with zero, one, sum and product); the loss and score values,
    which the code only compares, are the rationals they denote. *)

From Stdlib Require Import ZArith QArith Lqa Ring_theory String.
From stdpp Require Import base option list.

#[local] Open Scope Z_scope.

(** ** Scalars and tensors *)

Class Scalar (R : Type) := {
  rO : R;
  rI : R;
  radd : R -> R -> R;
  rmul : R -> R -> R
}.

(** A two-dimensional tensor: its shape and its rows. *)
Record matrix (R : Type) := Matrix {
  n_rows : nat;
  n_cols : nat;
  rows : list (list R)
}.
Arguments Matrix {R} _ _ _.
Arguments n_rows {R} _.
Arguments n_cols {R} _.
Arguments rows {R} _.

(** A three-dimensional tensor: shape [(k, n, f)] and [k] slices. *)
Record tensor3 (R : Type) := Tensor3 {
  t_shape : nat * nat * nat;
  t_slices : list (list (list R))
}.
Arguments Tensor3 {R} _ _.
Arguments t_shape {R} _.
Arguments t_slices {R} _.

Definition wf_matrix {R} (M : matrix R) : Prop :=
  length (rows M) = n_rows M /\ Forall (fun r => length r = n_cols M) (rows M).

Definition has_shape {R} (M : matrix R) (n f : nat) : Prop :=
  wf_matrix M /\ n_rows M = n /\ n_cols M = f.

(** [torch.zeros(n_iters, n_nodes, n_feats)]; a negative size raises. *)
Definition zeros `{Scalar R} (k : Z) (n f : nat) : option (tensor3 R) :=
  if k <? 0 then None
  else Some (Tensor3 (Z.to_nat k, n, f)
               (replicate (Z.to_nat k) (replicate n (replicate f rO)))).

(** [outs[i]] for a non-negative [i]: a view of shape [(n, f)]. *)
Definition getitem {R} (outs : tensor3 R) (i : nat) : option (matrix R) :=
  rs ← t_slices outs !! i;
  Some (Matrix (t_shape outs).1.2 (t_shape outs).2 rs).

(** Broadcasting of one dimension: a size equal to the target is kept, a
    size of one is repeated, anything else raises. *)
Definition broadcastable (have want : nat) : bool :=
  (have =? want)%nat || (have =? 1)%nat.

Definition stretch {A} (want : nat) (l : list A) : list A :=
  match l with
  | [x] => replicate want x
  | _ => l
  end.

Definition broadcast_to {R} (n f : nat) (M : matrix R) : option (list (list R)) :=
  if broadcastable (n_rows M) n && broadcastable (n_cols M) f
  then Some (stretch n (map (stretch f) (rows M)))
  else None.

(** [outs[i] = M] for a non-negative [i]; an index past the first
    dimension raises IndexError. *)
Definition setitem {R} (outs : tensor3 R) (i : nat) (M : matrix R)
  : option (tensor3 R) :=
  if (i <? (t_shape outs).1.1)%nat then
    rs ← broadcast_to (t_shape outs).1.2 (t_shape outs).2 M;
    Some (Tensor3 (t_shape outs) (<[i := rs]> (t_slices outs)))
  else None.

Definition dot `{Scalar R} (u v : list R) : R :=
  foldr radd rO (zip_with rmul u v).

Definition col `{Scalar R} (j : nat) (B : matrix R) : list R :=
  map (fun r => nth j r rO) (rows B).

(** [torch.mm(A, B)]; the inner sizes must agree. *)
Definition mm `{Scalar R} (A B : matrix R) : option (matrix R) :=
  if (n_cols A =? n_rows B)%nat then
    Some (Matrix (n_rows A) (n_cols B)
            (map (fun r => map (fun j => dot r (col j B)) (seq 0 (n_cols B)))
                 (rows A)))
  else None.

(** Python's [range(a, b)] on non-negative bounds. *)
Definition range (a b : nat) : list nat := seq a (b - a).

Fixpoint unroll_loop `{Scalar R} (P : matrix R) (idxs : list nat)
  (outs : tensor3 R) : option (tensor3 R) :=
  match idxs with
  | [] => Some outs
  | i :: idxs' =>
      prev ← getitem outs (i - 1);
      m ← mm P prev;
      outs' ← setitem outs i m;
      unroll_loop P idxs' outs'
  end.

(** [unroll(X, P, n_iters)].  Moving [outs] to the GPU does not change
    its shape or its values and is left out. *)
Definition unroll `{Scalar R} (X P : matrix R) (n_iters : Z)
  : option (tensor3 R) :=
  let n_nodes := n_rows X in
  let n_feats := n_cols X in
  outs ← zeros n_iters n_nodes n_feats;
  outs ← setitem outs 0 X;
  unroll_loop P (range 1 (Z.to_nat n_iters)) outs.

(** The snapshots as the docstring lists them: [X, PX, P(PX), ...]. *)
Fixpoint propagate `{Scalar R} (P : matrix R) (i : nat) (X : matrix R)
  : option (matrix R) :=
  match i with
  | O => Some X
  | S i' => M ← propagate P i' X; mm P M
  end.

(** The identity matrix and the powers of a square matrix. *)
Definition eye `{Scalar R} (n : nat) : matrix R :=
  Matrix n n
    (map (fun i => map (fun j => if (i =? j)%nat then rI else rO) (seq 0 n))
         (seq 0 n)).

Fixpoint mpow `{Scalar R} (P : matrix R) (i : nat) : option (matrix R) :=
  match i with
  | O => Some (eye (n_rows P))
  | S i' => Q ← mpow P i'; mm P Q
  end.

#[export] Instance Z_scalar : Scalar Z :=
  {| rO := 0; rI := 1; radd := Z.add; rmul := Z.mul |}.

(** What holds of [outs] once the slices below [j] are filled. *)
Definition filled `{Scalar R} (P X : matrix R) (k n f : nat)
  (outs : tensor3 R) (j : nat) : Prop :=
  t_shape outs = (k, n, f) /\ length (t_slices outs) = k /\
  forall i, (i < j)%nat ->
    exists M, propagate P i X = Some M /\ getitem outs i = Some M.

(** ** Indexing with an index tensor *)

(** [l[i]] for a Python integer: a negative index counts from the end. *)
Definition py_index {A} (l : list A) (i : Z) : option A :=
  if 0 <=? i then l !! Z.to_nat i
  else if - Z.of_nat (length l) <=? i then l !! Z.to_nat (Z.of_nat (length l) + i)
  else None.

(** [labels[idx]]: one entry per index, IndexError when one is out of range. *)
Definition index_select {A} (l : list A) (idx : list Z) : option (list A) :=
  mapM (py_index l) idx.

(** [outs[idx]]: the rows of [outs] picked by [idx]. *)
Definition index_rows {R} (outs : matrix R) (idx : list Z) : option (matrix R) :=
  rs ← index_select (rows outs) idx;
  Some (Matrix (length idx) (n_cols outs) rs).

(** ** accuracy *)

Definition Qltb (x y : Q) : bool :=
  match (x ?= y)%Q with Lt => true | _ => false end.

(** Index of the first largest entry of a row, scanning from position [i]
    with the best entry so far at [besti]. *)
Fixpoint argmax_from (best : Q) (besti i : nat) (l : list Q) : nat :=
  match l with
  | [] => besti
  | x :: l' =>
      if Qltb best x then argmax_from x i (S i) l'
      else argmax_from best besti (S i) l'
  end.

Definition argmax (l : list Q) : option nat :=
  match l with
  | [] => None
  | x :: l' => Some (argmax_from x 0 1 l')
  end.

(** [output.max(1)[1].type_as(labels)]: the arg-max class of every row, as
    integers; a reduction over zero classes raises. *)
Definition max1_indices (output : matrix Q) : option (list Z) :=
  if (n_cols output =? 0)%nat then None
  else mapM (fun r => Z.of_nat <$> argmax r) (rows output).

(** [preds.eq(labels)] with the broadcasting of one-element tensors. *)
Definition tensor_eq (a b : list Z) : option (list bool) :=
  if (length a =? length b)%nat then Some (zip_with Z.eqb a b)
  else match a, b with
       | [x], _ => Some (map (Z.eqb x) b)
       | _, [y] => Some (map (fun x => x =? y) a)
       | _, _ => None
       end.

Definition count_true (l : list bool) : nat :=
  length (filter (fun b => b = true) l).

(** [accuracy(output, labels)].  The result is the exact quotient; with no
    label at all the code divides zero by zero and returns [nan] without
    raising, a value the model does not carry: there is no result
    then. *)
Definition accuracy (output : matrix Q) (labels : list Z) : option Q :=
  preds ← max1_indices output;
  correct ← tensor_eq preds labels;
  let correct := count_true correct in
  if (length labels =? 0)%nat then None
  else Some (inject_Z (Z.of_nat correct) / inject_Z (Z.of_nat (length labels)))%Q.

(** Position [c] holds the first largest entry of the row [r]. *)
Definition is_first_max (r : list Q) (c : nat) : Prop :=
  exists x, r !! c = Some x /\
    (forall j z, r !! j = Some z -> (z <= x)%Q) /\
    (forall j z, (j < c)%nat -> r !! j = Some z -> (z < x)%Q).

(** The arg-max class of the row [r] is the label [y]. *)
Definition row_hit (r : list Q) (y : Z) : bool :=
  match argmax r with
  | Some c => Z.of_nat c =? y
  | None => false
  end.

(** The number of rows whose arg-max class is their label. *)
Definition hits (output : matrix Q) (labels : list Z) : nat :=
  count_true (zip_with row_hit (rows output) labels).

(** ** earlystopping *)

Module earlystopping.

Record self := Self {
  best : Q;
  patience : Z;
  t : Z
}.

(** [__init__(self, patience)] *)
Definition init (patience : Z) : self :=
  {| best := 1000%Q; patience := patience; t := 0 |}.

(** [test(self, l_list)]: the verdict and the object afterwards;
    [l_list[-1]] raises on an empty list. *)
Definition test (s : self) (l_list : list Q) : option (bool * self) :=
  current ← py_index l_list (-1);
  if Qltb current (best s) then
    Some (false, {| best := current; patience := patience s; t := t s |})
  else
    let s' := {| best := best s; patience := patience s; t := t s + 1 |} in
    if patience s' <? t s' then Some (true, s') else Some (false, s').

End earlystopping.

(** ** The network and the optimiser

    The GRN model (models.py) and torch's loss and optimiser are not part
    of this file.  [Net] is everything they keep between calls: parameters,
    gradients, the train/eval flag, Adam's moments, the random generator. *)

Class Torch (R Net : Type) := {
  (** [model(X)]: the class scores of every node *)
  forward : Net -> tensor3 R -> option (matrix Q * Net);
  (** the value of [nn.CrossEntropyLoss()(score, y)] *)
  cross_entropy : matrix Q -> list Z -> option Q;
  (** [loss.backward(retain_graph=True)] for the loss of [score] and [y] *)
  backward : matrix Q -> list Z -> Net -> Net;
  (** [optim.Adam(model.parameters(), lr, weight_decay)] *)
  adam : Q -> Q -> Net -> Net;
  zero_grad : Net -> Net;
  step : Net -> Net;
  (** [model.train()] and [model.eval()] *)
  train_mode : Net -> Net;
  eval_mode : Net -> Net
}.

(** The calls into the library, in the order they are made; a forward
    pass is recorded with the scores it returned. *)
Inductive event (R : Type) :=
| EvAdam (lr wd : Q)
| EvZeroGrad
| EvTrainMode
| EvEvalMode
| EvForward (X : tensor3 R) (outs : matrix Q)
| EvBackward (score : matrix Q) (y : list Z)
| EvStep.
Arguments EvAdam {R} _ _.
Arguments EvZeroGrad {R}.
Arguments EvTrainMode {R}.
Arguments EvEvalMode {R}.
Arguments EvForward {R} _ _.
Arguments EvBackward {R} _ _.
Arguments EvStep {R}.

Record world (R Net : Type) := World {
  net : Net;
  trace : list (event R)
}.
Arguments World {R Net} _ _.
Arguments net {R Net} _.
Arguments trace {R Net} _.

(** Computations that change the world and may raise.  The values of the
    model are finite numbers: a computation whose value is not one (the
    [nan] of an empty average) has no result here either. *)
Definition M (R Net A : Type) : Type := world R Net -> option (A * world R Net).

Definition ret {R Net A} (a : A) : M R Net A := fun w => Some (a, w).

Definition bind {R Net A B} (c : M R Net A) (k : A -> M R Net B) : M R Net B :=
  fun w => match c w with
           | Some (a, w') => k a w'
           | None => None
           end.

Definition lift {R Net A} (o : option A) : M R Net A :=
  fun w => match o with Some a => Some (a, w) | None => None end.

Notation "'do' x <- c ; k" := (bind c (fun x => k))
  (at level 10, x pattern, c at level 100, k at level 200).
Notation "'do_' c ; k" := (bind c (fun _ => k))
  (at level 10, c at level 100, k at level 200).

(** A library call that only changes the network. *)
Definition call `{Torch R Net} (e : event R) (f : Net -> Net) : M R Net unit :=
  fun w => Some (tt, World (f (net w)) (trace w ++ [e])).

Definition call_forward `{Torch R Net} (X : tensor3 R) : M R Net (matrix Q) :=
  fun w => match forward (net w) X with
           | Some (outs, n') => Some (outs, World n' (trace w ++ [EvForward X outs]))
           | None => None
           end.

(** A loss tensor: its value and what it was computed from. *)
Record loss_tensor := Loss {
  item : Q;
  loss_score : matrix Q;
  loss_y : list Z
}.

(** [loss_ce(score, y)] *)
Definition loss_ce `{Torch R Net} (score : matrix Q) (y : list Z)
  : option loss_tensor :=
  v ← cross_entropy score y;
  Some (Loss v score y).

Definition call_backward `{Torch R Net} (l : loss_tensor) : M R Net unit :=
  call (EvBackward (loss_score l) (loss_y l)) (backward (loss_score l) (loss_y l)).

(** The module-level tensors [train] reads. *)
Record globals (R : Type) := Globals {
  features : matrix R;
  P : matrix R
}.
Arguments Globals {R} _ _.
Arguments features {R} _.
Arguments P {R} _.

(** The local variables of [train] that live across epochs. *)
Record locals := Locals {
  loss_list_train : list Q;
  loss_list_val : list Q;
  acc_list_val : list Q;
  es : earlystopping.self
}.

(** The body of the epoch loop; the result is [stop]. *)
Definition epoch `{Torch R Net} (X : tensor3 R) (labels : list Z)
  (idx_train_ idx_val_ : list Z) (l : locals) : M R Net (bool * locals) :=
  do_ call EvZeroGrad zero_grad;
  do_ call EvTrainMode train_mode;
  do outs <- call_forward X;
  do score <- lift (index_rows outs idx_train_);
  do y <- lift (index_select labels idx_train_);
  do loss_train <- lift (loss_ce score y);
  do_ call_backward loss_train;
  let loss_list_train := loss_list_train l ++ [item loss_train] in
  do_ call EvStep step;
  do_ call EvEvalMode eval_mode;
  do outs <- call_forward X;
  do score <- lift (index_rows outs idx_val_);
  do y <- lift (index_select labels idx_val_);
  do loss_val <- lift (loss_ce score y);
  do acc_val <- lift (accuracy score y);
  let loss_list_val := loss_list_val l ++ [item loss_val] in
  let acc_list_val := acc_list_val l ++ [acc_val] in
  do r <- lift (earlystopping.test (es l) loss_list_val);
  ret (r.1, Locals loss_list_train loss_list_val acc_list_val r.2).

(** [for epoch in range(n_epochs): ...; if stop: break] *)
Fixpoint epochs `{Torch R Net} (n : nat) (X : tensor3 R) (labels : list Z)
  (idx_train_ idx_val_ : list Z) (l : locals) : M R Net locals :=
  match n with
  | O => ret l
  | S n' =>
      do r <- epoch X labels idx_train_ idx_val_ l;
      if r.1 then ret r.2
      else epochs n' X labels idx_train_ idx_val_ r.2
  end.

(** [train(model, n_iters, n_hids, n_epochs, X, labels, lr_, w_, p,
    idx_train_, idx_val_)] with [timecheck] off; [model] is the network of
    the world.  With [timecheck] on the result only gains the elapsed
    wall-clock time. *)
Definition train `{Torch R Net, Scalar R} (G : globals R)
  (n_iters n_hids n_epochs : Z) (X : tensor3 R) (labels : list Z)
  (lr_ w_ : Q) (p : Z) (idx_train_ idx_val_ : list Z)
  : M R Net (list Q * list Q * list Q) :=
  do X <- lift (unroll (features G) (P G) n_iters);
  do_ call (EvAdam lr_ w_) (adam lr_ w_);
  let l := Locals [] [] [] (earlystopping.init p) in
  do l <- epochs (Z.to_nat n_epochs) X labels idx_train_ idx_val_ l;
  ret (loss_list_train l, loss_list_val l, acc_list_val l).

(** [test(model, X, labels, idx_test_)]; the printing is left out. *)
Definition test `{Torch R Net} (X : tensor3 R) (labels : list Z)
  (idx_test_ : list Z) : M R Net (Q * Q) :=
  do_ call EvEvalMode eval_mode;
  do outs <- call_forward X;
  do score <- lift (index_rows outs idx_test_);
  do y <- lift (index_select labels idx_test_);
  do loss_test <- lift (loss_ce score y);
  do acc_test <- lift (accuracy score y);
  ret (item loss_test, acc_test).

(** ** The script

    utils.py, models.py, the [argparse] library and Python's conversions
    are not part of this file; the script reaches them through this
    interface. *)

Record data (R : Type) := Data {
  features_ : matrix R;
  labels_ : list Z;
  adj : matrix R;
  deg : matrix R;
  deg_inv : matrix R
}.
Arguments Data {R} _ _ _ _ _.
Arguments features_ {R} _.
Arguments labels_ {R} _.
Arguments adj {R} _.
Arguments deg {R} _.
Arguments deg_inv {R} _.

Class Repo (R Net : Type) := {
  load_data : string -> option (data R);
  GRN : Z -> nat -> nat -> Z -> Z -> Q -> Q -> Q -> option Net;
  split_idx : Z -> Z -> Z -> nat -> option (list Z * list Z * list Z);
  (** what the [argparse] library makes of a command line, for a parser
      that declares the given option strings with one word each: the
      declared options it recognises (spelled in full, abbreviated or
      with [=]), in order, each with its word; nothing when it ends the
      program (unknown or ambiguous option, missing word, [--help]) *)
  argparse : list string -> list string -> option (list (string * string));
  (** Python's [int] and [float] on a command-line word *)
  py_int : string -> option Z;
  py_float : string -> option Q
}.

(** The namespace [parser.parse_args()] returns. *)
Module arg.

Record t := T {
  lr : Q;
  wd : Q;
  n_hid : Z;
  n_iter : Z;
  dataset : string;
  ps : Z;
  d1 : Q;
  d2 : Q;
  d3 : Q
}.

End arg.

(** The [default=] of every [parser.add_argument]. *)
Definition parser_defaults : arg.t :=
  {| arg.lr := 1 # 100; arg.wd := 1 # 100; arg.n_hid := 112; arg.n_iter := 9;
     arg.dataset := "cora"; arg.ps := 5;
     arg.d1 := 2 # 10; arg.d2 := 2 # 10; arg.d3 := 4 # 10 |}.

(** The option strings the parser declares. *)
Definition option_strings : list string :=
  ["--lr"; "--wd"; "--n_hid"; "--n_iter"; "--dataset"; "--ps";
   "--d1"; "--d2"; "--d3"]%string.

(** Storing the word of one recognised option, converted by its
    [type=]; [name] is the declared option string. *)
Definition store `{Repo R Net} (a : arg.t) (name value : string) : option arg.t :=
  let '(arg.T lr wd n_hid n_iter dataset ps d1 d2 d3) := a in
  if String.eqb name "--lr" then
    v ← py_float value; Some (arg.T v wd n_hid n_iter dataset ps d1 d2 d3)
  else if String.eqb name "--wd" then
    v ← py_float value; Some (arg.T lr v n_hid n_iter dataset ps d1 d2 d3)
  else if String.eqb name "--n_hid" then
    v ← py_int value; Some (arg.T lr wd v n_iter dataset ps d1 d2 d3)
  else if String.eqb name "--n_iter" then
    v ← py_int value; Some (arg.T lr wd n_hid v dataset ps d1 d2 d3)
  else if String.eqb name "--dataset" then
    Some (arg.T lr wd n_hid n_iter value ps d1 d2 d3)
  else if String.eqb name "--ps" then
    v ← py_int value; Some (arg.T lr wd n_hid n_iter dataset v d1 d2 d3)
  else if String.eqb name "--d1" then
    v ← py_float value; Some (arg.T lr wd n_hid n_iter dataset ps v d2 d3)
  else if String.eqb name "--d2" then
    v ← py_float value; Some (arg.T lr wd n_hid n_iter dataset ps d1 v d3)
  else if String.eqb name "--d3" then
    v ← py_float value; Some (arg.T lr wd n_hid n_iter dataset ps d1 d2 v)
  else None.

(** Storing the recognised options in order, from the namespace [a]; a
    word that does not convert ends the script. *)
Fixpoint parse_from `{Repo R Net} (a : arg.t) (occ : list (string * string))
  : option arg.t :=
  match occ with
  | [] => Some a
  | (name, value) :: occ' => a' ← store a name value; parse_from a' occ'
  end.

(** The options recognised on the command line [argv] (the words after
    the program name); with no word at all there is none. *)
Definition recognise `{Repo R Net} (argv : list string)
  : option (list (string * string)) :=
  match argv with
  | [] => Some []
  | _ => argparse option_strings argv
  end.

(** [parser.parse_args()] *)
Definition parse_args `{Repo R Net} (argv : list string) : option arg.t :=
  occ ← recognise argv;
  parse_from parser_defaults occ.

(** The hyperparameters the script binds at module level. *)
Module config.

Record t := T {
  n_hids : Z;
  n_iters : Z;
  d1 : Q;
  d2 : Q;
  d3 : Q;
  n_epochs : Z;
  lr : Q;
  wd : Q;
  ps : Z
}.

End config.

Definition hyperparameters (a : arg.t) : config.t :=
  {| config.n_hids := arg.n_hid a;
     config.n_iters := arg.n_iter a;
     config.d1 := arg.d1 a;
     config.d2 := arg.d2 a;
     config.d3 := arg.d3 a;
     config.n_epochs := arg.n_iter a;
     config.lr := arg.lr a;
     config.wd := arg.wd a;
     config.ps := arg.ps a |}.

(** [np.max(labels_)]; the maximum of no label raises. *)
Definition np_max (l : list Z) : option Z :=
  match l with
  | [] => None
  | x :: l' => Some (foldl Z.max x l')
  end.

Record outcome := Outcome {
  l_train : list Q;
  l_val : list Q;
  acc_val : list Q;
  t_loss : Q;
  t_acc : Q
}.

(** The module body from [parse_args] to the call of [test]; moving the
    tensors to the GPU and the final print are left out. *)
Definition script `{Torch R Net, Scalar R, Repo R Net}
  (argv : list string) : option (outcome * world R Net) :=
  a ← parse_args argv;
  d ← load_data (arg.dataset a);
  P ← mm (deg_inv d) (adj d);
  let features := features_ d in
  let labels := labels_ d in
  let n_nodes := n_rows (features_ d) in
  let n_feats := n_cols (features_ d) in
  m ← np_max (labels_ d);
  let n_class := m + 1 in
  let c := hyperparameters a in
  grn ← GRN (config.n_iters c) n_nodes n_feats (config.n_hids c) n_class
            (config.d1 c) (config.d2 c) (config.d3 c);
  idx ← split_idx 140 500 1000 n_nodes;
  let '(idx_train_, idx_val_, idx_test_) := idx in
  X ← unroll features P (config.n_iters c);
  (do r <- train (Globals features P) (config.n_iters c) (config.n_hids c)
             (config.n_epochs c) X labels (config.lr c) (config.wd c)
             (config.ps c) idx_train_ idx_val_;
   do r' <- test X labels idx_test_;
   ret (Outcome r.1.1 r.1.2 r.2 r'.1 r'.2)) (World grn []).

(** ** Reference notions for the early-stopping rule *)

(** The calls [train] makes on one object: after every epoch, [test] on the
    validation losses so far.  [seen] holds the earlier losses. *)
Fixpoint feed (s : earlystopping.self) (seen rest : list Q)
  : option (list bool * earlystopping.self) :=
  match rest with
  | [] => Some ([], s)
  | x :: rest' =>
      r ← earlystopping.test s (seen ++ [x]);
      r' ← feed r.2 (seen ++ [x]) rest';
      Some (r.1 :: r'.1, r'.2)
  end.

(** The verdict of every epoch for patience [p] and losses [ls]. *)
Definition verdicts (p : Z) (ls : list Q) : option (list bool) :=
  fst <$> feed (earlystopping.init p) [] ls.

(** Any sequence of calls on one object; a call that raises leaves the
    object as it was. *)
Definition after_calls (s : earlystopping.self) (calls : list (list Q))
  : earlystopping.self :=
  foldl (fun s l => match earlystopping.test s l with
                    | Some r => r.2
                    | None => s
                    end) s calls.

(** The loss every call submits: the last entry of its list. *)
Definition submitted (calls : list (list Q)) : list Q :=
  omap (fun l => py_index l (-1)) calls.

(** [b] is a least element of [l]. *)
Definition is_min_of (b : Q) (l : list Q) : Prop :=
  In b l /\ Forall (fun x => (b <= x)%Q) l.

(** The best of the losses [ls], starting from the value the object is
    built with. *)
Definition running_best (ls : list Q) : Q :=
  foldl (fun b x => if Qltb x b then x else b) 1000%Q ls.

(** Epoch [k] of [ls] fails to improve on the best before it. *)
Definition fails_at (ls : list Q) (k : nat) : bool :=
  match ls !! k with
  | Some x => negb (Qltb x (running_best (take k ls)))
  | None => false
  end.

(** The number of failing epochs of [ls], consecutive or not. *)
Definition failures (ls : list Q) : Z :=
  Z.of_nat (length (filter (fun k => fails_at ls k = true) (seq 0 (length ls)))).

(** The rule in the words of the specification: the best is that of the
    losses alone, and an improvement starts the count again. *)
Fixpoint streak_from (best : option Q) (c : Z) (ls : list Q) : Z :=
  match ls with
  | [] => c
  | x :: ls' =>
      match best with
      | None => streak_from (Some x) 0 ls'
      | Some b =>
          if Qltb x b then streak_from (Some x) 0 ls'
          else streak_from (Some b) (c + 1) ls'
      end
  end.

Definition streak (ls : list Q) : Z := streak_from None 0 ls.

Definition spec_stop (p : Z) (ls : list Q) : bool := p <? streak ls.

(** ** Reference notions for the trace of [train] *)

(** The record of one epoch: what it adds to the trace and to each of the
    three lists. *)
Record epoch_log (R : Type) := EpochLog {
  e_trace : list (event R);
  e_loss_train : Q;
  e_loss_val : Q;
  e_acc_val : Q
}.
Arguments EpochLog {R} _ _ _ _.
Arguments e_trace {R} _.
Arguments e_loss_train {R} _.
Arguments e_loss_val {R} _.
Arguments e_acc_val {R} _.

(** An epoch as [train] runs it on the tensor [X]: the forward pass in
    training mode, the backward pass of the cross-entropy loss at the
    training indices, one optimiser step, then the forward pass in
    evaluation mode with the loss and the accuracy at the validation
    indices. *)
Definition epoch_ok `{Torch R Net} (X : tensor3 R) (labels : list Z)
  (idx_train_ idx_val_ : list Z) (e : epoch_log R) : Prop :=
  exists outs score y outs' score' y',
    index_rows outs idx_train_ = Some score /\
    index_select labels idx_train_ = Some y /\
    cross_entropy score y = Some (e_loss_train e) /\
    index_rows outs' idx_val_ = Some score' /\
    index_select labels idx_val_ = Some y' /\
    cross_entropy score' y' = Some (e_loss_val e) /\
    accuracy score' y' = Some (e_acc_val e) /\
    e_trace e = [EvZeroGrad; EvTrainMode; EvForward X outs;
                 EvBackward score y; EvStep;
                 EvEvalMode; EvForward X outs'].

(** The tensors handed to the model, in order. *)
Definition forward_inputs {R} (tr : list (event R)) : list (tensor3 R) :=
  omap (fun e => match e with EvForward X _ => Some X | _ => None end) tr.



(** The verdict at the epoch that completes the losses [pre]: the epoch
    fails to improve and the failures so far outnumber the patience. *)
Definition stop_rule (p : Z) (pre : list Q) : bool :=
  fails_at pre (length pre - 1) && (p <? failures pre).

(** The object after the losses [seen]. *)
Definition es_after (p : Z) (seen : list Q) (s : earlystopping.self) : Prop :=
  earlystopping.best s = running_best seen /\
  earlystopping.t s = failures seen /\
  earlystopping.patience s = p.

(** ** A one-parameter network, for the examples

    The parameter counts the optimiser steps, every score equals the
    parameter and the loss is the first score it is given; the data set
    has two nodes. *)

Definition toy_forward (n : Z) (X : tensor3 Z) : option (matrix Q * Z) :=
  Some (Matrix 2 2 [[inject_Z n; inject_Z n]; [inject_Z n; inject_Z n]], n).

Definition toy_loss (score : matrix Q) (y : list Z) : option Q :=
  match rows score with
  | (x :: _) :: _ => Some x
  | _ => None
  end.

#[export] Instance toy_torch : Torch Z Z :=
  {| forward := toy_forward;
     cross_entropy := toy_loss;
     backward := fun _ _ n => n;
     adam := fun _ _ n => n;
     zero_grad := fun n => n;
     step := fun n => n + 1;
     train_mode := fun n => n;
     eval_mode := fun n => n |}.

Definition toy_data : data Z :=
  Data (Matrix 2 1 [[1]; [2]]) [0; 1]
       (Matrix 2 2 [[0; 1]; [1; 1]])
       (Matrix 2 2 [[1; 0]; [0; 2]])
       (Matrix 2 2 [[1; 0]; [0; 1]]).

(** A command line read as options spelled in full, each followed by its
    word. *)
Fixpoint pair_up (argv : list string) : option (list (string * string)) :=
  match argv with
  | [] => Some []
  | name :: value :: argv' => occ ← pair_up argv'; Some ((name, value) :: occ)
  | _ => None
  end.

#[export] Instance toy_repo : Repo Z Z :=
  {| load_data := fun _ => Some toy_data;
     GRN := fun _ _ _ _ _ _ _ _ => Some 0;
     split_idx := fun _ _ _ _ => Some ([0], [1], [1]);
     argparse := fun _ argv => pair_up argv;
     py_int := fun _ => None;
     py_float := fun _ => None |}.

Definition toy_globals : globals Z :=
  Globals (Matrix 2 1 [[1]; [2]]) (Matrix 2 2 [[0; 1]; [1; 1]]).

(** A run of [train] on it: patience 0, at most five epochs. *)
Definition toy_train : M Z Z (list Q * list Q * list Q) :=
  train toy_globals 3 112 5 (Tensor3 (0, 0, 0)%nat []) [0; 1]
    (1 # 100) (1 # 100) 0 [0] [1].

(** The world that run ends in. *)
Definition toy_world : world Z Z :=
  Eval vm_compute in
    match toy_train (World 0 []) with
    | Some (_, w) => w
    | None => World 0 []
    end.

(** The outcome and the final world of the script on it, with an empty
    command line. *)
Definition toy_outcome : outcome :=
  Eval vm_compute in
    match script (R := Z) (Net := Z) [] with
    | Some (o, _) => o
    | None => Outcome [] [] [] 0 0
    end.

Definition toy_script_world : world Z Z :=
  Eval vm_compute in
    match script (R := Z) (Net := Z) [] with
    | Some (_, w) => w
    | None => World 0 []
    end.

(** ** Reference notions for the snapshots *)

(** The entry of a matrix at row [r] and column [c]. *)
Definition entry `{Scalar R} (M : matrix R) (r c : nat) : R :=
  nth c (nth r (rows M) []) rO.

(** [g lo + (g (lo + 1) + ... + (g (lo + n - 1) + 0))]. *)
Fixpoint sum_range `{Scalar R} (g : nat -> R) (lo n : nat) : R :=
  match n with
  | O => rO
  | S n' => radd (g lo) (sum_range g (S lo) n')
  end.

(** [C] is the matrix product of [A] and [B], entry by entry. *)
Definition is_product `{Scalar R} (A B C : matrix R) : Prop :=
  has_shape C (n_rows A) (n_cols B) /\
  forall r c, (r < n_rows A)%nat -> (c < n_cols B)%nat ->
    entry C r c
    = sum_range (fun j => rmul (entry A r j) (entry B j c)) 0 (n_cols A).

(** [S] is [X] multiplied [i] times by [P], from the left. *)
Fixpoint is_snapshot `{Scalar R} (P X : matrix R) (i : nat) (S : matrix R) : Prop :=
  match i with
  | O => S = X
  | Datatypes.S i' => exists S', is_snapshot P X i' S' /\ is_product P S' S
  end.

(** ** Reference notion for the accuracy *)

(** The number of positions at which the arg-max class of the row is the
    label, counted row by row. *)
Fixpoint matching_rows (rs : list (list Q)) (labels : list Z) : nat :=
  match rs, labels with
  | r :: rs', y :: labels' =>
      ((if row_hit r y then 1 else 0) + matching_rows rs' labels')%nat
  | _, _ => 0%nat
  end.

(** ** Further reference notions *)

(** The rows of the [i]-th snapshot, [P] applied [i] times to [X]. *)
Definition snapshot_rows `{Scalar R} (P X : matrix R) (i : nat) : list (list R) :=
  match propagate P i X with
  | Some M => rows M
  | None => []
  end.

(** The score matrix with [g] applied to every score. *)
Definition map_scores (g : Q -> Q) (output : matrix Q) : matrix Q :=
  Matrix (n_rows output) (n_cols output) (map (map g) (rows output)).

(** Every loss is below the one before it, the first one below [b]. *)
Fixpoint decreasing_from (b : Q) (ls : list Q) : Prop :=
  match ls with
  | [] => True
  | x :: ls' => (x < b)%Q /\ decreasing_from x ls'
  end.

(** Reading a word of decimal digits, with an optional minus sign. *)
Definition digit (c : Ascii.ascii) : option Z :=
  let d := Z.of_nat (Ascii.nat_of_ascii c) - 48 in
  if (0 <=? d) && (d <=? 9) then Some d else None.

Fixpoint digits (acc : Z) (s : string) : option Z :=
  match s with
  | EmptyString => Some acc
  | String c s' => d ← digit c; digits (10 * acc + d) s'
  end.

Definition read_int (s : string) : option Z :=
  match s with
  | EmptyString => None
  | String c s' =>
      if Ascii.eqb c (Ascii.ascii_of_nat 45) then
        match s' with
        | EmptyString => None
        | _ => Z.opp <$> digits 0 s'
        end
      else digits 0 s
  end.

(** The toy repository with that conversion for the integer options. *)
Definition digits_repo : Repo Z Z :=
  {| load_data := fun _ => Some toy_data;
     GRN := fun _ _ _ _ _ _ _ _ => Some 0;
     split_idx := fun _ _ _ _ => Some ([0], [1], [1]);
     argparse := fun _ argv => pair_up argv;
     py_int := read_int;
     py_float := fun _ => None |}.


(** ** Reference notions for the network along a run of [train] *)

(** One epoch as a function of the network before it: the record of the
    epoch and the network after it.  The network goes through
    [zero_grad], [train()], the forward pass, the backward pass of the
    loss at the training indices, the optimiser step, [eval()] and the
    second forward pass, in this order. *)
Definition epoch_step `{Torch R Net} (X : tensor3 R) (labels : list Z)
  (idx_train_ idx_val_ : list Z) (n : Net) : option (epoch_log R * Net) :=
  r ← forward (train_mode (zero_grad n)) X;
  score ← index_rows r.1 idx_train_;
  y ← index_select labels idx_train_;
  a ← cross_entropy score y;
  r' ← forward (eval_mode (step (backward score y r.2))) X;
  score' ← index_rows r'.1 idx_val_;
  y' ← index_select labels idx_val_;
  v ← cross_entropy score' y';
  c ← accuracy score' y';
  Some (EpochLog [EvZeroGrad; EvTrainMode; EvForward X r.1;
                  EvBackward score y; EvStep;
                  EvEvalMode; EvForward X r'.1] a v c, r'.2).

(** The epochs of [log] lead from the network [n] to the network [n'],
    each starting from the network the one before it ended with. *)
Fixpoint epochs_chain `{Torch R Net} (X : tensor3 R) (labels : list Z)
  (idx_train_ idx_val_ : list Z) (n : Net) (log : list (epoch_log R))
  (n' : Net) : Prop :=
  match log with
  | [] => n' = n
  | e :: log' =>
      exists n1, epoch_step X labels idx_train_ idx_val_ n = Some (e, n1) /\
                 epochs_chain X labels idx_train_ idx_val_ n1 log' n'
  end.

(** ** Reference notion for the command line *)


(** * Properties *)

(** ** unroll *)

Example unroll_three_steps :
  unroll (Matrix 2 1 [[1]; [2]]) (Matrix 2 2 [[0; 1]; [1; 1]]) 3
  = Some (Tensor3 (3, 2, 1)%nat [[[1]; [2]]; [[2]; [3]]; [[3]; [5]]]).
Proof. reflexivity. Qed.

(** With no step at all the assignment to [outs[0]] raises. *)
Example unroll_no_step :
  unroll (Matrix 2 1 [[1]; [2]]) (Matrix 2 2 [[0; 1]; [1; 1]]) 0 = None.
Proof. reflexivity. Qed.

(** A propagation matrix of the wrong size makes [torch.mm] raise. *)
Example unroll_wrong_size :
  unroll (Matrix 2 1 [[1]; [2]]) (Matrix 1 1 [[1]]) 2 = None.
Proof. reflexivity. Qed.

Lemma stretch_same {A} (n : nat) (l : list A) : length l = n -> stretch n l = l.
Proof.
  intros Hl. destruct l as [|x [|y l]]; simpl in *; try reflexivity.
  subst n. reflexivity.
Qed.

Lemma broadcast_to_same {R} (n f : nat) (M : matrix R) :
  has_shape M n f -> broadcast_to n f M = Some (rows M).
Proof.
  intros ([Hlen Hrows] & Hn & Hf). unfold broadcast_to, broadcastable.
  rewrite Hn, Hf, !Nat.eqb_refl. simpl. f_equal.
  assert (Hmap : map (stretch f) (rows M) = rows M).
  { rewrite <- (map_id (rows M)) at 2. apply map_ext_Forall.
    eapply Forall_impl; [exact Hrows|]. intros r Hr. simpl in Hr.
    apply stretch_same. congruence. }
  rewrite Hmap. apply stretch_same. congruence.
Qed.

Lemma mm_has_shape `{Scalar R} (A B : matrix R) (n m f : nat) :
  has_shape A n m -> has_shape B m f ->
  exists C, mm A B = Some C /\ has_shape C n f.
Proof.
  intros ([HlA HrA] & HnA & HmA) ([HlB HrB] & HmB & HfB).
  unfold mm. rewrite HmA, HmB, Nat.eqb_refl.
  eexists. split; [reflexivity|].
  repeat split; simpl.
  - rewrite length_map. congruence.
  - apply Forall_map. apply Forall_forall. intros r _. simpl.
    rewrite length_map, length_seq. reflexivity.
  - exact HnA.
  - exact HfB.
Qed.

Lemma propagate_has_shape `{Scalar R} (P X : matrix R) (n f i : nat) :
  has_shape P n n -> has_shape X n f ->
  exists M, propagate P i X = Some M /\ has_shape M n f.
Proof.
  intros HP HX. induction i as [|i (M & HM & HMs)]; simpl.
  - eauto.
  - rewrite HM. simpl. eapply mm_has_shape; eauto.
Qed.

Lemma getitem_setitem_same {R} (outs outs' : tensor3 R) (i : nat) (M : matrix R) :
  has_shape M (t_shape outs).1.2 (t_shape outs).2 ->
  length (t_slices outs) = (t_shape outs).1.1 ->
  (i < (t_shape outs).1.1)%nat ->
  exists outs', setitem outs i M = Some outs' /\
    t_shape outs' = t_shape outs /\
    length (t_slices outs') = length (t_slices outs) /\
    getitem outs' i = Some M /\
    forall j, j <> i -> getitem outs' j = getitem outs j.
Proof.
  intros HM Hlen Hi. unfold setitem.
  apply Nat.ltb_lt in Hi as Hi'. rewrite Hi'.
  rewrite (broadcast_to_same _ _ _ HM). simpl.
  eexists. split; [reflexivity|]. simpl. repeat split.
  - apply length_insert.
  - unfold getitem. simpl. rewrite list_lookup_insert_eq by lia. simpl.
    destruct HM as (_ & Hn & Hf). destruct M; simpl in *. congruence.
  - intros j Hj. unfold getitem. simpl.
    rewrite list_lookup_insert_ne by congruence. reflexivity.
Qed.

Lemma unroll_loop_filled `{Scalar R} (P X : matrix R) (k n f : nat) :
  has_shape P n n -> has_shape X n f ->
  forall cnt start outs,
    (1 <= start)%nat -> (start + cnt <= k)%nat ->
    filled P X k n f outs start ->
    exists outs', unroll_loop P (seq start cnt) outs = Some outs' /\
      filled P X k n f outs' (start + cnt).
Proof.
  intros HP HX. induction cnt as [|cnt IH]; intros start outs Hs Hk Hf.
  - simpl. exists outs. rewrite Nat.add_0_r. auto.
  - destruct Hf as (Hsh & Hlen & Hsl). simpl.
    destruct (Hsl (start - 1)%nat) as (M & HM & Hget); [lia|].
    rewrite Hget. simpl.
    destruct (propagate_has_shape P X n f (start - 1) HP HX) as (M0 & HM0 & HM0s).
    assert (M0 = M) by congruence. subst M0.
    destruct (mm_has_shape P M n n f HP HM0s) as (M' & HM' & HM's).
    rewrite HM'. simpl.
    destruct (getitem_setitem_same outs outs start M') as (outs' & Hset & Hsh' & Hlen' & Hnew & Hold).
    { rewrite Hsh. exact HM's. }
    { rewrite Hsh. exact Hlen. }
    { rewrite Hsh. simpl. lia. }
    rewrite Hset. simpl.
    destruct (IH (S start) outs') as (outs'' & Hloop & Hfilled).
    + lia.
    + lia.
    + split; [congruence|]. split; [congruence|].
      intros i Hi. destruct (decide (i = start)) as [->|Hne].
      * exists M'. split; [|exact Hnew].
        replace start with (S (start - 1)) at 1 by lia. simpl. rewrite HM. exact HM'.
      * destruct (Hsl i) as (Mi & HMi & Hgi); [lia|].
        exists Mi. split; [exact HMi|]. rewrite Hold by exact Hne. exact Hgi.
    + exists outs''. split; [exact Hloop|].
      replace (start + S cnt)%nat with (S start + cnt)%nat by lia. exact Hfilled.
Qed.

(** The snapshots of [unroll], without any assumption on the scalars:
    slice [i] is [P] applied [i] times to [X]. *)
Lemma unroll_propagate `{Scalar R} (X P : matrix R) (n f : nat) (n_iters : Z) :
  has_shape X n f -> has_shape P n n -> 1 <= n_iters ->
  exists outs, unroll X P n_iters = Some outs /\
    t_shape outs = (Z.to_nat n_iters, n, f) /\
    length (t_slices outs) = Z.to_nat n_iters /\
    forall i, (i < Z.to_nat n_iters)%nat ->
      exists M, propagate P i X = Some M /\ has_shape M n f /\
        getitem outs i = Some M.
Proof.
  intros HX HP Hn. unfold unroll, zeros.
  destruct (Z.ltb_spec n_iters 0) as [|_]; [lia|]. simpl.
  destruct HX as (HXw & HXn & HXf). rewrite HXn, HXf.
  set (z := Tensor3 _ _).
  destruct (getitem_setitem_same z z 0%nat X) as (o & Hset & Hsh & Hlen & Hnew & _).
  { subst z; simpl. exact (conj HXw (conj HXn HXf)). }
  { subst z; simpl. apply length_replicate. }
  { subst z; simpl. lia. }
  rewrite Hset. simpl. unfold range.
  destruct (unroll_loop_filled P X (Z.to_nat n_iters) n f HP
              (conj HXw (conj HXn HXf)) (Z.to_nat n_iters - 1) 1%nat o)
    as (outs & Hloop & Hsh' & Hlen' & Hsl).
  - lia.
  - lia.
  - split; [rewrite Hsh; reflexivity|]. split.
    + rewrite Hlen. subst z; simpl. apply length_replicate.
    + intros i Hi. assert (i = 0%nat) by lia. subst i. exists X. auto.
  - exists outs. split; [exact Hloop|]. split; [exact Hsh'|]. split; [exact Hlen'|].
    intros i Hi. destruct (Hsl i) as (M & HM & Hg); [lia|].
    destruct (propagate_has_shape P X n f i HP (conj HXw (conj HXn HXf)))
      as (M0 & HM0 & HM0s).
    exists M. split; [exact HM|]. split; [congruence|exact Hg].
Qed.

(** *** Matrix powers, for scalars that form a commutative semiring *)

Section Semiring.
Context `{Scalar R} (SR : semi_ring_theory rO rI radd rmul eq).

Add Ring scalar_ring : SR.

Lemma map_nth_seq {A} (d : A) (l : list A) :
  map (fun j => nth j l d) (seq 0 (length l)) = l.
Proof.
  induction l as [|x l IH]; simpl; [reflexivity|].
  f_equal. rewrite <- seq_shift, map_map. exact IH.
Qed.

Lemma nth_map_seq {A} (g : nat -> A) (d : A) (n j : nat) :
  (j < n)%nat -> nth j (map g (seq 0 n)) d = g j.
Proof.
  intros Hj. rewrite (nth_indep _ d (g 0%nat)) by (rewrite length_map, length_seq; lia).
  rewrite (map_nth g (seq 0 n) 0%nat j), seq_nth by lia. reflexivity.
Qed.

Lemma dot_zero (js : list nat) (v : list R) :
  dot (map (fun _ => rO) js) v = rO.
Proof.
  revert v. induction js as [|j js IH]; intros [|x v]; try reflexivity.
  unfold dot in *. simpl. rewrite IH. ring.
Qed.

Lemma dot_add (g h : nat -> R) (js : list nat) (v : list R) :
  dot (map (fun j => radd (g j) (h j)) js) v
  = radd (dot (map g js) v) (dot (map h js) v).
Proof.
  revert v. induction js as [|j js IH]; intros [|x v]; unfold dot in *; simpl;
    try ring.
  rewrite IH. ring.
Qed.

Lemma dot_scale (a : R) (g : nat -> R) (js : list nat) (v : list R) :
  dot (map (fun j => rmul a (g j)) js) v = rmul a (dot (map g js) v).
Proof.
  revert v. induction js as [|j js IH]; intros [|x v]; unfold dot in *; simpl;
    try ring.
  rewrite IH. ring.
Qed.

(** A row times a matrix, then times a column; or the row times the
    matrix-column product. *)
Lemma dot_assoc (l : nat) (v : list R) (Qs : list (list R)) :
  Forall (fun q => length q = l) Qs ->
  forall p, length p = length Qs ->
    dot (map (fun j => dot p (map (fun r => nth j r rO) Qs)) (seq 0 l)) v
    = dot p (map (fun q => dot q v) Qs).
Proof.
  induction 1 as [|q Qs Hq HQs IH]; intros [|a p] Hp; simpl in Hp; try lia.
  - simpl. apply dot_zero.
  - change (dot (map (fun j => radd (rmul a (nth j q rO))
                             (dot p (map (fun r => nth j r rO) Qs))) (seq 0 l)) v
            = radd (rmul a (dot q v)) (dot p (map (fun q => dot q v) Qs))).
    rewrite (dot_add (fun j => rmul a (nth j q rO))), dot_scale, IH by lia.
    subst l. rewrite map_nth_seq. reflexivity.
Qed.

Lemma mm_assoc (A B C AB BC : matrix R) (n m l f : nat) :
  has_shape A n m -> has_shape B m l -> has_shape C l f ->
  mm A B = Some AB -> mm B C = Some BC ->
  mm AB C = mm A BC.
Proof.
  intros ([HlA HrA] & HnA & HmA) ([HlB HrB] & HmB & HlB') ([HlC HrC] & HlC' & HfC).
  destruct A as [nA mA rA], B as [nB mB rB], C as [nC mC rC].
  simpl in *.
  assert (E1 : (mA =? nB)%nat = true) by (apply Nat.eqb_eq; congruence).
  assert (E2 : (mB =? nC)%nat = true) by (apply Nat.eqb_eq; congruence).
  unfold mm. simpl. rewrite E1, E2.
  intros [= <-] [= <-]. simpl. rewrite E1, E2.
  f_equal. f_equal. rewrite map_map.
  apply map_ext_Forall. eapply Forall_impl; [exact HrA|].
  intros p Hp. simpl in Hp. apply map_ext_in. intros j Hj.
  apply in_seq in Hj. unfold col. simpl. rewrite map_map.
  transitivity (dot p (map (fun q => dot q (map (fun r => nth j r rO) rC)) rB)).
  - apply dot_assoc; [exact HrB | congruence].
  - f_equal. apply map_ext. intros q. symmetry.
    apply (nth_map_seq (fun j0 => dot q (map (fun r => nth j0 r rO) rC))). lia.
Qed.

Lemma dot_unit_lt (i : nat) (c : list R) (s : nat) :
  (i < s)%nat ->
  dot (map (fun j => if (i =? j)%nat then rI else rO) (seq s (length c))) c = rO.
Proof.
  revert s. induction c as [|x c IH]; intros s Hs; [reflexivity|].
  simpl. destruct (Nat.eqb_spec i s) as [|_]; [lia|].
  change (radd (rmul rO x)
            (dot (map (fun j => if (i =? j)%nat then rI else rO)
                    (seq (S s) (length c))) c) = rO).
  rewrite IH by lia. ring.
Qed.

Lemma dot_unit (i : nat) (c : list R) (s : nat) :
  (s <= i)%nat ->
  dot (map (fun j => if (i =? j)%nat then rI else rO) (seq s (length c))) c
  = nth (i - s) c rO.
Proof.
  revert s. induction c as [|x c IH]; intros s Hs.
  - simpl. destruct (i - s)%nat; reflexivity.
  - simpl seq. simpl map.
    change (radd (rmul (if (i =? s)%nat then rI else rO) x)
              (dot (map (fun j => if (i =? j)%nat then rI else rO)
                      (seq (S s) (length c))) c) = nth (i - s) (x :: c) rO).
    destruct (Nat.eqb_spec i s) as [->|Hne].
    + rewrite dot_unit_lt by lia. rewrite Nat.sub_diag. simpl. ring.
    + rewrite IH by lia. replace (i - s)%nat with (S (i - S s)) by lia.
      simpl. ring.
Qed.

Lemma mm_eye (X : matrix R) (n f : nat) :
  has_shape X n f -> mm (eye n) X = Some X.
Proof.
  intros ([Hl Hr] & Hn & Hf). unfold mm. simpl. rewrite Hn, Nat.eqb_refl.
  destruct X as [n' f' rs]. simpl in *. subst n' f' n. f_equal. f_equal.
  rewrite map_map. rewrite <- (map_nth_seq [] rs) at 2.
  apply map_ext_in. intros i Hi. apply in_seq in Hi.
  assert (Hrow : length (nth i rs []) = f).
  { rewrite Forall_forall in Hr. apply Hr. apply list_elem_of_In, nth_In. lia. }
  rewrite <- (map_nth_seq rO (nth i rs [])) at 1. rewrite Hrow.
  apply map_ext. intros j. unfold col. simpl.
  rewrite <- (length_map (fun r => nth j r rO) rs).
  rewrite dot_unit by lia. rewrite Nat.sub_0_r.
  rewrite (nth_indep _ rO (nth j [] rO)) by (rewrite length_map; lia).
  apply (map_nth (fun r => nth j r rO)).
Qed.

Lemma eye_has_shape (n : nat) : has_shape (eye n) n n.
Proof.
  repeat split; simpl.
  - rewrite length_map, length_seq. reflexivity.
  - apply Forall_map, Forall_forall. intros i _. simpl.
    rewrite length_map, length_seq. reflexivity.
Qed.

Lemma mpow_has_shape (P : matrix R) (n i : nat) :
  has_shape P n n -> exists Q, mpow P i = Some Q /\ has_shape Q n n.
Proof.
  intros HP. induction i as [|i (Q & HQ & HQs)]; simpl.
  - exists (eye (n_rows P)). split; [reflexivity|].
    destruct HP as (_ & -> & _). apply eye_has_shape.
  - rewrite HQ. simpl. eapply mm_has_shape; eauto.
Qed.

(** Applying [P] [i] times is multiplying by the [i]-th power of [P]. *)
Lemma propagate_mpow (P X : matrix R) (n f i : nat) :
  has_shape P n n -> has_shape X n f ->
  exists Q, mpow P i = Some Q /\ mm Q X = propagate P i X.
Proof.
  intros HP HX. induction i as [|i (Q & HQ & HQX)]; simpl.
  - eexists. split; [reflexivity|].
    destruct HP as (HPw & HPn & HPm). rewrite HPn. eapply mm_eye; eauto.
  - rewrite HQ. simpl.
    destruct (mpow_has_shape P n i HP) as (Q' & HQ' & HQs).
    assert (Q' = Q) by congruence. subst Q'.
    destruct (mm_has_shape P Q n n n HP HQs) as (PQ & HPQ & _).
    destruct (propagate_has_shape P X n f i HP HX) as (M & HM & _).
    exists PQ. split; [exact HPQ|]. rewrite HM. simpl.
    eapply mm_assoc; eauto. congruence.
Qed.

(** For scalars with exact arithmetic (a commutative semiring, which
    floating-point numbers are not) the snapshots are the powers of [P]
    times [X]. *)
Lemma unroll_matrix_powers (X P : matrix R) (n f : nat) (n_iters : Z) :
  has_shape X n f -> has_shape P n n -> 1 <= n_iters ->
  exists outs, unroll X P n_iters = Some outs /\
    t_shape outs = (Z.to_nat n_iters, n, f) /\
    length (t_slices outs) = Z.to_nat n_iters /\
    getitem outs 0 = Some X /\
    forall i, (i < Z.to_nat n_iters)%nat ->
      exists Pi S, mpow P i = Some Pi /\ mm Pi X = Some S /\
        propagate P i X = Some S /\ has_shape S n f /\
        getitem outs i = Some S.
Proof.
  intros HX HP Hn.
  destruct (unroll_propagate X P n f n_iters HX HP Hn)
    as (outs & Hrun & Hsh & Hlen & Hsl).
  exists outs. repeat (split; [assumption|]). split.
  - destruct (Hsl 0%nat) as (M & HM & _ & Hg); [lia|].
    simpl in HM. congruence.
  - intros i Hi. destruct (Hsl i Hi) as (M & HM & HMs & Hg).
    destruct (propagate_mpow P X n f i HP HX) as (Pi & HPi & HPiX).
    exists Pi, M. rewrite HPiX. auto.
Qed.

End Semiring.

Lemma Z_semi_ring : semi_ring_theory (rO : Z) rI radd rmul eq.
Proof.
  constructor; simpl; intros; lia.
Qed.

Lemma sum_range_ext `{Scalar R} (g h : nat -> R) (n : nat) :
  forall lo, (forall j, (lo <= j < lo + n)%nat -> g j = h j) ->
    sum_range g lo n = sum_range h lo n.
Proof.
  induction n as [|n IH]; intros lo Hgh; simpl; [reflexivity|].
  rewrite (Hgh lo) by lia. f_equal. apply IH. intros j Hj. apply Hgh. lia.
Qed.

Lemma sum_range_shift `{Scalar R} (g : nat -> R) (n : nat) :
  forall lo, sum_range g (S lo) n = sum_range (fun j => g (S j)) lo n.
Proof.
  induction n as [|n IH]; intros lo; simpl; [reflexivity|].
  f_equal. apply IH.
Qed.

(** The product of a row and a column, as a sum over the positions. *)
Lemma dot_sum_range `{Scalar R} (u : list R) :
  forall v, length u = length v ->
    dot u v = sum_range (fun j => rmul (nth j u rO) (nth j v rO)) 0 (length u).
Proof.
  induction u as [|x u IH]; intros [|y v] Hl; simpl in Hl; try lia.
  - reflexivity.
  - simpl length. simpl sum_range. rewrite sum_range_shift.
    change (dot (x :: u) (y :: v)) with (radd (rmul x y) (dot u v)).
    simpl. f_equal. apply IH. lia.
Qed.

Lemma nth_col `{Scalar R} (B : matrix R) (j c : nat) :
  (j < length (rows B))%nat -> nth j (col c B) rO = entry B j c.
Proof.
  intros Hj. unfold col, entry.
  rewrite (nth_indep _ rO (nth c [] rO)) by (rewrite length_map; lia).
  apply (map_nth (fun r => nth c r rO)).
Qed.

(** [torch.mm] computes the product entry by entry. *)
Lemma mm_is_product `{Scalar R} (A B C : matrix R) (n m f : nat) :
  has_shape A n m -> has_shape B m f -> mm A B = Some C -> is_product A B C.
Proof.
  intros HA HB Hmm.
  destruct (mm_has_shape A B n m f HA HB) as (C' & HC' & HCs).
  assert (C' = C) by congruence. subst C'.
  destruct HA as ([HlA HrA] & HnA & HmA). destruct HB as ([HlB HrB] & HmB & HfB).
  split; [rewrite HnA, HfB; exact HCs|].
  intros r c Hr Hc. unfold mm in Hmm.
  rewrite HmA, HmB, Nat.eqb_refl in Hmm. injection Hmm as <-.
  unfold entry at 1. simpl.
  set (F := fun row => map (fun j => dot row (col j B)) (seq 0 (n_cols B))).
  rewrite (nth_indep _ [] (F [])) by (rewrite length_map; lia).
  rewrite (map_nth F). unfold F. rewrite nth_map_seq by exact Hc.
  assert (Hrow : length (nth r (rows A) []) = m).
  { rewrite Forall_forall in HrA. rewrite <- HmA. apply HrA.
    apply list_elem_of_In, nth_In. lia. }
  rewrite dot_sum_range by (unfold col; rewrite length_map; lia).
  rewrite Hrow, HmA. apply sum_range_ext. intros j Hj.
  f_equal. apply nth_col. lia.
Qed.

Lemma propagate_is_snapshot `{Scalar R} (P X : matrix R) (n f : nat) :
  has_shape P n n -> has_shape X n f ->
  forall i M, propagate P i X = Some M -> is_snapshot P X i M.
Proof.
  intros HP HX. induction i as [|i IH]; intros M HM; simpl in *.
  - congruence.
  - destruct (propagate_has_shape P X n f i HP HX) as (M' & HM' & HM's).
    rewrite HM' in HM. simpl in HM.
    exists M'. split; [apply IH; exact HM'|].
    eapply mm_is_product; eauto.
Qed.

(** C1: for a feature matrix [X] of shape [(n, f)], an [n]-by-[n]
    propagation matrix [P] and [n_iters >= 1], [unroll X P n_iters] returns
    a tensor of shape [(n_iters, n, f)] holding exactly [n_iters] slices,
    whatever the entries of the matrices; slice [0] is [X] unchanged, and
    slice [i] is [X] multiplied [i] times by [P], every product being the
    matrix product entry by entry, for every [i < n_iters]. *)
Theorem unroll_snapshots `{Scalar R} (X P : matrix R) (n f : nat) (n_iters : Z) :
  has_shape X n f -> has_shape P n n -> 1 <= n_iters ->
  exists outs, unroll X P n_iters = Some outs /\
    t_shape outs = (Z.to_nat n_iters, n, f) /\
    length (t_slices outs) = Z.to_nat n_iters /\
    getitem outs 0 = Some X /\
    forall i, (i < Z.to_nat n_iters)%nat ->
      exists S, getitem outs i = Some S /\ has_shape S n f /\
        is_snapshot P X i S.
Proof.
  intros HX HP Hn.
  destruct (unroll_propagate X P n f n_iters HX HP Hn)
    as (outs & Hrun & Hsh & Hlen & Hsl).
  exists outs. repeat (split; [assumption|]). split.
  - destruct (Hsl 0%nat) as (M & HM & _ & Hg); [lia|].
    simpl in HM. congruence.
  - intros i Hi. destruct (Hsl i Hi) as (M & HM & HMs & Hg).
    exists M. split; [exact Hg|]. split; [exact HMs|].
    eapply propagate_is_snapshot; eauto.
Qed.

Lemma unroll_snapshots_witness :
  exists outs,
    unroll (Matrix 2 1 [[1]; [2]]) (Matrix 2 2 [[0; 1]; [1; 1]]) 3 = Some outs /\
    t_shape outs = (Z.to_nat 3, 2, 1)%nat /\
    length (t_slices outs) = Z.to_nat 3 /\
    getitem outs 0 = Some (Matrix 2 1 [[1]; [2]]) /\
    forall i, (i < Z.to_nat 3)%nat ->
      exists S, getitem outs i = Some S /\ has_shape S 2 1 /\
        is_snapshot (Matrix 2 2 [[0; 1]; [1; 1]]) (Matrix 2 1 [[1]; [2]]) i S.
Proof.
  apply (unroll_snapshots (Matrix 2 1 [[1]; [2]])
           (Matrix 2 2 [[0; 1]; [1; 1]]) 2 1 3).
  - repeat split; simpl; repeat constructor.
  - repeat split; simpl; repeat constructor.
  - lia.
Defined.

(** ** accuracy *)

Example accuracy_two_of_three :
  accuracy (Matrix 3 2 [[1; 2]; [3; 1]; [2; 2]]%Q) [1; 0; 1] = Some (2 # 3)%Q.
Proof. reflexivity. Qed.

(** With no class at all the reduction raises. *)
Example accuracy_no_class : accuracy (Matrix 1 0 [[]]) [0] = None.
Proof. reflexivity. Qed.

Lemma Qltb_lt (a b : Q) : Qltb a b = true <-> (a < b)%Q.
Proof.
  unfold Qltb. rewrite Qlt_alt. destruct (a ?= b)%Q; split; congruence.
Qed.

Lemma Qltb_ge (a b : Q) : Qltb a b = false <-> (b <= a)%Q.
Proof.
  rewrite <- not_true_iff_false, Qltb_lt. split.
  - apply Qnot_lt_le.
  - intros Hle Hlt. exact (Qlt_not_le _ _ Hlt Hle).
Qed.

Lemma argmax_from_first_max (l pre : list Q) (best : Q) (besti : nat) :
  pre !! besti = Some best ->
  (forall j z, pre !! j = Some z -> (z <= best)%Q) ->
  (forall j z, (j < besti)%nat -> pre !! j = Some z -> (z < best)%Q) ->
  is_first_max (pre ++ l) (argmax_from best besti (length pre) l).
Proof.
  revert pre best besti. induction l as [|x l IH]; intros pre best besti Hb Hmax Hfirst.
  - simpl. rewrite app_nil_r. exists best. auto.
  - simpl. replace (pre ++ x :: l) with ((pre ++ [x]) ++ l)
      by (rewrite <- app_assoc; reflexivity).
    replace (S (length pre)) with (length (pre ++ [x]))
      by (rewrite length_app; simpl; lia).
    destruct (Qltb best x) eqn:E.
    + apply Qltb_lt in E. apply IH.
      * rewrite lookup_app_r by lia. rewrite Nat.sub_diag. reflexivity.
      * intros j z Hj. destruct (decide (j < length pre)%nat) as [Hlt|Hge].
        -- rewrite lookup_app_l in Hj by lia. apply Hmax in Hj. lra.
        -- rewrite lookup_app_r in Hj by lia.
           destruct (j - length pre)%nat as [|k]; simpl in Hj; [|destruct k; discriminate].
           injection Hj as <-. lra.
      * intros j z Hlt Hj. rewrite lookup_app_l in Hj by lia.
        apply Hmax in Hj. lra.
    + apply Qltb_ge in E. apply lookup_lt_Some in Hb as Hbi. apply IH.
      * rewrite lookup_app_l by lia. exact Hb.
      * intros j z Hj. destruct (decide (j < length pre)%nat) as [Hlt|Hge].
        -- rewrite lookup_app_l in Hj by lia. eauto.
        -- rewrite lookup_app_r in Hj by lia.
           destruct (j - length pre)%nat as [|k]; simpl in Hj; [|destruct k; discriminate].
           injection Hj as <-. exact E.
      * intros j z Hlt Hj. rewrite lookup_app_l in Hj by lia. eauto.
Qed.

(** [argmax] finds the first largest entry. *)
Lemma argmax_first_max (r : list Q) (c : nat) :
  argmax r = Some c -> is_first_max r c.
Proof.
  destruct r as [|x l]; simpl; [discriminate|]. intros [= <-].
  apply (argmax_from_first_max l [x] x 0).
  - reflexivity.
  - intros [|j] z Hj; simpl in Hj; [injection Hj as <-; lra | destruct j; discriminate].
  - intros j z Hj. lia.
Qed.

Lemma max1_indices_rows (rs : list (list Q)) (f : nat) :
  (0 < f)%nat -> Forall (fun r => length r = f) rs ->
  exists preds, mapM (fun r => Z.of_nat <$> argmax r) rs = Some preds /\
    forall labels, zip_with Z.eqb preds labels = zip_with row_hit rs labels.
Proof.
  intros Hf. induction 1 as [|r rs Hr Hrs (preds & Hm & Hz)].
  - exists []. split; [reflexivity|]. intros labels. reflexivity.
  - destruct r as [|x l]; [simpl in Hr; lia|].
    exists (Z.of_nat (argmax_from x 0 1 l) :: preds). split.
    + simpl. rewrite Hm. reflexivity.
    + intros [|y labels]; [reflexivity|]. simpl. rewrite Hz. reflexivity.
Qed.

Lemma count_true_le (l : list bool) : (count_true l <= length l)%nat.
Proof. apply length_filter. Qed.

Lemma hits_matching_rows (output : matrix Q) (labels : list Z) :
  hits output labels = matching_rows (rows output) labels.
Proof.
  unfold hits. generalize (rows output) as rs. intros rs. revert labels.
  induction rs as [|r rs IH]; intros [|y labels]; try reflexivity.
  simpl. rewrite <- IH. unfold count_true. rewrite filter_cons.
  destruct (row_hit r y).
  - destruct (decide (true = true)); [reflexivity|congruence].
  - destruct (decide (false = true)); [discriminate|reflexivity].
Qed.

(** C7, as the code has it: for a score matrix with at least one class
    and a non-empty label vector with one label per row, [accuracy]
    returns the number of rows whose arg-max class (the position of the
    first largest score) is the row's label, divided by the number of
    labels, and the result lies between 0 and 1. *)
Theorem accuracy_ratio (output : matrix Q) (labels : list Z) :
  wf_matrix output -> (0 < n_cols output)%nat ->
  labels <> [] -> n_rows output = length labels ->
  exists a,
    accuracy output labels = Some a /\
    a = (inject_Z (Z.of_nat (matching_rows (rows output) labels))
         / inject_Z (Z.of_nat (length labels)))%Q /\
    (0 <= a)%Q /\ (a <= 1)%Q /\
    (forall r c, argmax r = Some c -> is_first_max r c).
Proof.
  intros [Hlen Hrows] Hf Hne Hn.
  destruct (max1_indices_rows (rows output) (n_cols output) Hf Hrows)
    as (preds & Hm & Hz).
  assert (Hlp : length preds = length (rows output)).
  { symmetry. eapply length_mapM. exact Hm. }
  assert (Hpos : (0 < length labels)%nat).
  { destruct labels; [congruence|simpl; lia]. }
  rewrite <- hits_matching_rows.
  eexists. split; [|split; [reflexivity|]].
  - unfold accuracy, max1_indices.
    destruct (Nat.eqb_spec (n_cols output) 0) as [|_]; [lia|].
    rewrite Hm. simpl. unfold tensor_eq.
    destruct (Nat.eqb_spec (length preds) (length labels)) as [_|Hd]; [|congruence].
    simpl. destruct (Nat.eqb_spec (length labels) 0) as [|_]; [lia|].
    rewrite Hz. reflexivity.
  - assert (Hh : (hits output labels <= length labels)%nat).
    { unfold hits. etransitivity; [apply count_true_le|].
      rewrite length_zip_with. lia. }
    assert (Hd : (0 < inject_Z (Z.of_nat (length labels)))%Q).
    { change 0%Q with (inject_Z 0). rewrite <- Zlt_Qlt. lia. }
    split; [|split; [|exact argmax_first_max]].
    + apply Qle_shift_div_l; [exact Hd|]. rewrite Qmult_0_l.
      change 0%Q with (inject_Z 0). rewrite <- Zle_Qle. lia.
    + apply Qle_shift_div_r; [exact Hd|]. rewrite Qmult_1_l.
      rewrite <- Zle_Qle. lia.
Qed.

Lemma accuracy_ratio_witness :
  exists a,
    accuracy (Matrix 3 2 [[1; 2]; [3; 1]; [2; 2]]%Q) [1; 0; 1] = Some a /\
    a = (inject_Z (Z.of_nat (matching_rows
                               (rows (Matrix 3 2 [[1; 2]; [3; 1]; [2; 2]]%Q))
                               [1; 0; 1]%Z))
         / inject_Z (Z.of_nat (length [1; 0; 1]%Z)))%Q /\
    (0 <= a)%Q /\ (a <= 1)%Q /\
    (forall r c, argmax r = Some c -> is_first_max r c).
Proof.
  apply (accuracy_ratio (Matrix 3 2 [[1; 2]; [3; 1]; [2; 2]]%Q) [1; 0; 1]).
  - split; simpl; repeat constructor.
  - simpl. lia.
  - discriminate.
  - reflexivity.
Defined.

(** C7 as stated fails: a score matrix with one row and no class, with
    one label for that row, makes the reduction [output.max(1)] raise,
    so [accuracy] returns nothing. *)
Lemma accuracy_zero_classes :
  wf_matrix (Matrix 1 0 [[]] : matrix Q) /\
  [0] <> @nil Z /\
  n_rows (Matrix 1 0 [[]] : matrix Q) = length [0] /\
  accuracy (Matrix 1 0 [[]]) [0] = None.
Proof.
  split; [split; simpl; repeat constructor|].
  split; [discriminate|]. split; reflexivity.
Qed.

(** ** earlystopping *)

(** The counter is not set back by the improvement at the third epoch. *)
Example verdicts_no_reset :
  verdicts 1 [5; 6; 4; 7]%Q = Some [false; false; false; true].
Proof. reflexivity. Qed.

Example test_empty_list :
  earlystopping.test (earlystopping.init 5) [] = None.
Proof. reflexivity. Qed.

Lemma py_index_last {A} (l : list A) (x : A) : py_index (l ++ [x]) (-1) = Some x.
Proof.
  unfold py_index. simpl. rewrite length_app. simpl.
  destruct (Z.leb_spec (- Z.of_nat (length l + 1)) (-1)) as [_|]; [|lia].
  replace (Z.to_nat (Z.of_nat (length l + 1) + -1)) with (length l) by lia.
  rewrite lookup_app_r by lia. rewrite Nat.sub_diag. reflexivity.
Qed.

Lemma py_index_nil {A} (i : Z) : py_index (@nil A) i = None.
Proof. unfold py_index. repeat case_match; reflexivity. Qed.

Lemma filter_bool_ext_in {A} (g h : A -> bool) (l : list A) :
  (forall x, x ∈ l -> g x = h x) ->
  filter (fun x => g x = true) l = filter (fun x => h x = true) l.
Proof.
  induction l as [|x l IH]; intros Hgh; [reflexivity|].
  rewrite !filter_cons. rewrite (Hgh x) by apply list_elem_of_here.
  rewrite IH by (intros y Hy; apply Hgh, list_elem_of_further, Hy).
  reflexivity.
Qed.

Lemma running_best_snoc (l : list Q) (x : Q) :
  running_best (l ++ [x])
  = if Qltb x (running_best l) then x else running_best l.
Proof. unfold running_best. rewrite foldl_app. reflexivity. Qed.

Lemma fails_at_app (l l' : list Q) (k : nat) :
  (k < length l)%nat -> fails_at (l ++ l') k = fails_at l k.
Proof.
  intros Hk. unfold fails_at.
  rewrite lookup_app_l by lia. rewrite take_app_le by lia. reflexivity.
Qed.

Lemma fails_at_last (l : list Q) (x : Q) :
  fails_at (l ++ [x]) (length l) = negb (Qltb x (running_best l)).
Proof.
  unfold fails_at. rewrite lookup_app_r by lia. rewrite Nat.sub_diag. simpl.
  rewrite take_app_length. reflexivity.
Qed.

Lemma failures_snoc (l : list Q) (x : Q) :
  failures (l ++ [x])
  = failures l + (if Qltb x (running_best l) then 0 else 1).
Proof.
  unfold failures. rewrite length_app. simpl.
  rewrite Nat.add_1_r, seq_S, filter_app. simpl.
  rewrite length_app.
  rewrite (filter_bool_ext_in (fails_at (l ++ [x])) (fails_at l) (seq 0 (length l))).
  - rewrite filter_cons, filter_nil. rewrite fails_at_last.
    destruct (Qltb x (running_best l)); simpl.
    + destruct (decide (false = true)); [discriminate|]. simpl. lia.
    + destruct (decide (true = true)); [|congruence]. simpl. lia.
  - intros k Hk. apply elem_of_seq in Hk. apply fails_at_app. lia.
Qed.

Lemma es_after_init (p : Z) : es_after p [] (earlystopping.init p).
Proof. repeat split. Qed.

(** One call of [test] with one more loss. *)
Lemma test_step (p : Z) (seen : list Q) (x : Q) (s : earlystopping.self) :
  es_after p seen s ->
  exists s', earlystopping.test s (seen ++ [x])
             = Some (stop_rule p (seen ++ [x]), s') /\
    es_after p (seen ++ [x]) s'.
Proof.
  intros (Hb & Ht & Hp). unfold earlystopping.test, stop_rule, es_after.
  rewrite py_index_last. simpl.
  rewrite length_app. simpl. rewrite Nat.add_sub.
  rewrite fails_at_last, failures_snoc, running_best_snoc, Hb, Hp, Ht.
  destruct (Qltb x (running_best seen)); simpl.
  - eexists. split; [reflexivity|]. repeat split; simpl; auto. lia.
  - destruct (p <? failures seen + 1);
      (eexists; split; [reflexivity|]; repeat split; simpl; auto).
Qed.

Lemma feed_stop_rule (p : Z) (rest seen : list Q) (s : earlystopping.self) :
  es_after p seen s ->
  exists s', feed s seen rest
             = Some (map (fun k => stop_rule p (take (length seen + S k) (seen ++ rest)))
                       (seq 0 (length rest)), s') /\
    es_after p (seen ++ rest) s'.
Proof.
  revert seen s. induction rest as [|x rest IH]; intros seen s Hs.
  - simpl. exists s. rewrite app_nil_r. auto.
  - destruct (test_step p seen x s Hs) as (s1 & Htest & Hs1).
    destruct (IH (seen ++ [x]) s1 Hs1) as (s2 & Hfeed & Hs2).
    exists s2. rewrite <- app_assoc in Hs2. split; [|exact Hs2].
    cbn [feed length seq map]. rewrite Htest. cbn [mbind option_bind fst snd].
    rewrite Hfeed. cbn [mbind option_bind fst snd]. f_equal. f_equal. f_equal.
    + replace (seen ++ x :: rest) with ((seen ++ [x]) ++ rest)
        by (rewrite <- app_assoc; reflexivity).
      rewrite take_app_length'; [reflexivity|].
      rewrite length_app. simpl. lia.
    + rewrite <- seq_shift, map_map. apply map_ext. intros k.
      rewrite <- app_assoc, length_app. simpl. f_equal. f_equal. lia.
Qed.

(** The verdict of every epoch, in closed form. *)
Lemma verdicts_stop_rule (p : Z) (ls : list Q) :
  verdicts p ls
  = Some (map (fun k => stop_rule p (take (S k) ls)) (seq 0 (length ls))).
Proof.
  unfold verdicts.
  destruct (feed_stop_rule p ls [] (earlystopping.init p) (es_after_init p))
    as (s' & Hfeed & _).
  rewrite Hfeed. reflexivity.
Qed.

Lemma failures_nonneg (ls : list Q) : 0 <= failures ls.
Proof. unfold failures. lia. Qed.

Lemma take_S_snoc {A} (ls : list A) (k : nat) (x : A) :
  ls !! k = Some x -> take (S k) ls = take k ls ++ [x].
Proof. intros Hx. apply take_S_r. exact Hx. Qed.

(** With a non-negative patience, the first epoch at which the failures
    outnumber the patience is a failing epoch. *)
Lemma first_crossing_fails (p : Z) (ls : list Q) (k : nat) :
  0 <= p -> (k < length ls)%nat ->
  p < failures (take (S k) ls) ->
  (forall j, (j < k)%nat -> failures (take (S j) ls) <= p) ->
  stop_rule p (take (S k) ls) = true.
Proof.
  intros Hp Hk Hover Hbefore.
  destruct (lookup_lt_is_Some_2 ls k Hk) as (x & Hx).
  rewrite (take_S_snoc ls k x Hx) in *.
  unfold stop_rule. rewrite length_app. simpl. rewrite Nat.add_sub.
  rewrite length_take_le by lia.
  replace (fails_at (take k ls ++ [x]) k)
    with (fails_at (take k ls ++ [x]) (length (take k ls)))
    by (rewrite length_take_le by lia; reflexivity).
  rewrite fails_at_last. rewrite failures_snoc in *.
  assert (Hprev : failures (take k ls) <= p).
  { destruct k as [|j]; [rewrite take_0; unfold failures; simpl; lia|].
    apply Hbefore. lia. }
  destruct (Qltb x (running_best (take k ls))); simpl.
  - lia.
  - apply Z.ltb_lt. lia.
Qed.

(** ** train *)

Lemma bind_Some {R Net A B} (c : M R Net A) (k : A -> M R Net B)
  (w : world R Net) (r : B * world R Net) :
  bind c k w = Some r -> exists a w', c w = Some (a, w') /\ k a w' = Some r.
Proof.
  unfold bind. destruct (c w) as [[a w']|]; [eauto|discriminate].
Qed.

Lemma lift_Some {R Net A} (o : option A) (w w' : world R Net) (a : A) :
  lift o w = Some (a, w') -> o = Some a /\ w' = w.
Proof. unfold lift. destruct o; intros [= <- <-]; auto. Qed.

Lemma ret_Some {R Net A} (a a' : A) (w w' : world R Net) :
  ret a w = Some (a', w') -> a' = a /\ w' = w.
Proof. unfold ret. intros [= <- <-]; auto. Qed.

Lemma call_Some `{Torch R Net} (e : event R) (f : Net -> Net)
  (w w' : world R Net) (u : unit) :
  call e f w = Some (u, w') -> trace w' = trace w ++ [e] /\ net w' = f (net w).
Proof. unfold call. intros [= _ <-]. auto. Qed.

Lemma call_forward_Some `{Torch R Net} (X : tensor3 R) (w w' : world R Net)
  (outs : matrix Q) :
  call_forward X w = Some (outs, w') ->
  trace w' = trace w ++ [EvForward X outs] /\
  forward (net w) X = Some (outs, net w').
Proof.
  unfold call_forward. destruct (forward (net w) X) as [[o n']|]; [|discriminate].
  intros [= <- <-]. auto.
Qed.

(** Taking a successful run of the monad apart, call by call. *)
Ltac run_inv :=
  repeat (cbv beta zeta in *;
          match goal with
          | H : bind _ _ _ = Some _ |- _ =>
              apply bind_Some in H as (? & ? & ? & ?)
          | H : lift _ _ = Some _ |- _ => apply lift_Some in H as (? & ?)
          | H : ret _ _ = Some _ |- _ => apply ret_Some in H as (? & ?)
          | H : call _ _ _ = Some _ |- _ => apply call_Some in H as (? & ?)
          | H : call_backward _ _ = Some _ |- _ => unfold call_backward in H
          | H : call_forward _ _ = Some _ |- _ =>
              apply call_forward_Some in H as (? & ?)
          end).

Lemma loss_ce_Some `{Torch R Net} (score : matrix Q) (y : list Z) (l : loss_tensor) :
  loss_ce score y = Some l ->
  loss_score l = score /\ loss_y l = y /\ cross_entropy score y = Some (item l).
Proof.
  unfold loss_ce. destruct (cross_entropy score y); [|discriminate].
  intros [= <-]. auto.
Qed.

(** An epoch computed by [epoch_step] has the shape [epoch_ok] asks for. *)
Lemma epoch_step_ok `{Torch R Net} (X : tensor3 R) (labels idx_train_ idx_val_ : list Z)
  (n n' : Net) (e : epoch_log R) :
  epoch_step X labels idx_train_ idx_val_ n = Some (e, n') ->
  epoch_ok X labels idx_train_ idx_val_ e.
Proof.
  unfold epoch_step. intros Hs.
  destruct (forward (train_mode (zero_grad n)) X) as [[outs n1]|]; [|discriminate].
  simpl in Hs.
  destruct (index_rows outs idx_train_) as [score|] eqn:Hsc; [|discriminate].
  simpl in Hs.
  destruct (index_select labels idx_train_) as [y|] eqn:Hy; [|discriminate].
  simpl in Hs.
  destruct (cross_entropy score y) as [a|] eqn:Ha; [|discriminate].
  simpl in Hs.
  destruct (forward (eval_mode (step (backward score y n1))) X)
    as [[outs' n3]|]; [|discriminate].
  simpl in Hs.
  destruct (index_rows outs' idx_val_) as [score'|] eqn:Hsc'; [|discriminate].
  simpl in Hs.
  destruct (index_select labels idx_val_) as [y'|] eqn:Hy'; [|discriminate].
  simpl in Hs.
  destruct (cross_entropy score' y') as [v|] eqn:Hv; [|discriminate].
  simpl in Hs.
  destruct (accuracy score' y') as [c|] eqn:Hc; [|discriminate].
  simpl in Hs. injection Hs as <- <-.
  exists outs, score, y, outs', score', y'. simpl. auto 10.
Qed.

(** What one successful epoch does. *)
Lemma epoch_run `{Torch R Net} (X : tensor3 R) (labels idx_train_ idx_val_ : list Z)
  (l l1 : locals) (w w1 : world R Net) (stop : bool) :
  epoch X labels idx_train_ idx_val_ l w = Some ((stop, l1), w1) ->
  exists e,
    epoch_ok X labels idx_train_ idx_val_ e /\
    trace w1 = trace w ++ e_trace e /\
    loss_list_train l1 = loss_list_train l ++ [e_loss_train e] /\
    loss_list_val l1 = loss_list_val l ++ [e_loss_val e] /\
    acc_list_val l1 = acc_list_val l ++ [e_acc_val e] /\
    earlystopping.test (es l) (loss_list_val l ++ [e_loss_val e])
    = Some (stop, es l1) /\
    epoch_step X labels idx_train_ idx_val_ (net w) = Some (e, net w1).
Proof.
  intros Hrun. unfold epoch in Hrun.
  apply bind_Some in Hrun as (u1 & wa & Hc1 & Hrun).
  apply call_Some in Hc1 as (Ht1 & Hn1).
  apply bind_Some in Hrun as (u2 & wb & Hc2 & Hrun).
  apply call_Some in Hc2 as (Ht2 & Hn2).
  apply bind_Some in Hrun as (outs & wc & Hf & Hrun).
  apply call_forward_Some in Hf as (Ht3 & Hf).
  apply bind_Some in Hrun as (score & wd & Hsc & Hrun).
  apply lift_Some in Hsc as (Hsc & ->).
  apply bind_Some in Hrun as (y & we & Hy & Hrun).
  apply lift_Some in Hy as (Hy & ->).
  apply bind_Some in Hrun as (lt0 & wf & Hl & Hrun).
  apply lift_Some in Hl as (Hl & ->).
  apply loss_ce_Some in Hl as (Hls & Hly & Hce).
  apply bind_Some in Hrun as (u3 & wg & Hc3 & Hrun).
  unfold call_backward in Hc3. rewrite Hls, Hly in Hc3.
  apply call_Some in Hc3 as (Ht4 & Hn4).
  cbv beta zeta in Hrun.
  apply bind_Some in Hrun as (u4 & wh & Hc4 & Hrun).
  apply call_Some in Hc4 as (Ht5 & Hn5).
  apply bind_Some in Hrun as (u5 & wi & Hc5 & Hrun).
  apply call_Some in Hc5 as (Ht6 & Hn6).
  apply bind_Some in Hrun as (outs' & wj & Hf' & Hrun).
  apply call_forward_Some in Hf' as (Ht7 & Hf').
  apply bind_Some in Hrun as (score' & wk & Hsc' & Hrun).
  apply lift_Some in Hsc' as (Hsc' & ->).
  apply bind_Some in Hrun as (y' & wl & Hy' & Hrun).
  apply lift_Some in Hy' as (Hy' & ->).
  apply bind_Some in Hrun as (lv0 & wm & Hl' & Hrun).
  apply lift_Some in Hl' as (Hl' & ->).
  apply loss_ce_Some in Hl' as (_ & _ & Hce').
  apply bind_Some in Hrun as (c & wn & Hacc & Hrun).
  apply lift_Some in Hacc as (Hacc & ->).
  cbv beta zeta in Hrun.
  apply bind_Some in Hrun as ([stop' s'] & wo & Htest & Hrun).
  apply lift_Some in Htest as (Htest & ->).
  apply ret_Some in Hrun as (Hr & ->). simpl in Hr. injection Hr as -> ->.
  rewrite Hn2, Hn1 in Hf. rewrite Hn6, Hn5, Hn4 in Hf'.
  assert (Hstep : epoch_step X labels idx_train_ idx_val_ (net w)
                  = Some (EpochLog [EvZeroGrad; EvTrainMode; EvForward X outs;
                                    EvBackward score y; EvStep;
                                    EvEvalMode; EvForward X outs']
                            (item lt0) (item lv0) c, net wj)).
  { unfold epoch_step. rewrite Hf. simpl. rewrite Hsc. simpl. rewrite Hy. simpl.
    rewrite Hce. simpl. rewrite Hf'. simpl. rewrite Hsc'. simpl. rewrite Hy'. simpl.
    rewrite Hce'. simpl. rewrite Hacc. reflexivity. }
  eexists. split; [eapply epoch_step_ok; exact Hstep|]. simpl.
  split; [rewrite Ht7, Ht6, Ht5, Ht4, Ht3, Ht2, Ht1, <- !app_assoc; reflexivity|].
  auto 10.
Qed.

(** What a successful run of the epoch loop does, from any epoch on. *)
Lemma epochs_run `{Torch R Net} (p : Z) (X : tensor3 R)
  (labels idx_train_ idx_val_ : list Z) (n : nat) :
  forall (l l' : locals) (w w' : world R Net),
    es_after p (loss_list_val l) (es l) ->
    epochs n X labels idx_train_ idx_val_ l w = Some (l', w') ->
    exists log,
      trace w' = trace w ++ concat (map e_trace log) /\
      Forall (epoch_ok X labels idx_train_ idx_val_) log /\
      (length log <= n)%nat /\
      loss_list_train l' = loss_list_train l ++ map e_loss_train log /\
      loss_list_val l' = loss_list_val l ++ map e_loss_val log /\
      acc_list_val l' = acc_list_val l ++ map e_acc_val log /\
      (forall k, (length (loss_list_val l) <= k)%nat ->
                 (S k < length (loss_list_val l'))%nat ->
                 stop_rule p (take (S k) (loss_list_val l')) = false) /\
      ((length log < n)%nat ->
       log <> [] /\ stop_rule p (loss_list_val l') = true) /\
      epochs_chain X labels idx_train_ idx_val_ (net w) log (net w').
Proof.
  induction n as [|n IH]; intros l l' w w' Hes Hrun; simpl in Hrun.
  - apply ret_Some in Hrun as (-> & ->).
    exists []. simpl. rewrite !app_nil_r.
    repeat split; auto; lia.
  - apply bind_Some in Hrun as ([stop l1] & w1 & Hep & Hrest).
    apply epoch_run in Hep as (e & He & Htr & Hlt & Hlv & Hla & Htest & Hstep).
    destruct (test_step p (loss_list_val l) (e_loss_val e) (es l) Hes)
      as (s1 & Htest' & Hes1).
    rewrite Htest in Htest'. injection Htest' as Hstop Hs1.
    rewrite <- Hs1, <- Hlv in Hes1. simpl in Hrest.
    destruct stop.
    + apply ret_Some in Hrest as (-> & ->).
      exists [e]. simpl. rewrite app_nil_r.
      do 2 (split; [auto|]). split; [lia|]. do 3 (split; [auto|]). split; [|split].
      * intros k Hk1 Hk2. rewrite Hlv, length_app in Hk2. simpl in Hk2. lia.
      * intros _. split; [discriminate|]. rewrite Hlv. symmetry. exact Hstop.
      * exists (net w1). split; [exact Hstep|reflexivity].
    + destruct (IH l1 l' w1 w' Hes1 Hrest)
        as (log & Htr' & Hlog & Hlen & Hlt' & Hlv' & Hla' & Hno & Hlast & Hchain).
      exists (e :: log). simpl.
      split; [rewrite Htr', Htr, <- app_assoc; reflexivity|].
      split; [constructor; assumption|].
      split; [lia|].
      split; [rewrite Hlt', Hlt, <- app_assoc; reflexivity|].
      split; [rewrite Hlv', Hlv, <- app_assoc; reflexivity|].
      split; [rewrite Hla', Hla, <- app_assoc; reflexivity|].
      split.
      * intros k Hk1 Hk2.
        destruct (decide (k = length (loss_list_val l))) as [->|Hne].
        -- rewrite Hlv', Hlv.
           rewrite take_app_length'
             by (rewrite length_app; simpl; lia).
           symmetry. exact Hstop.
        -- apply Hno; [|exact Hk2]. rewrite Hlv, length_app. simpl. lia.
      * split.
        -- intros Hlt2. destruct Hlast as (_ & Hlast); [lia|].
           split; [discriminate|exact Hlast].
        -- exists (net w1). split; [exact Hstep|exact Hchain].
Qed.

(** What a successful run of [train] does. *)
Lemma train_run `{Torch R Net, Scalar R} (G : globals R)
  (n_iters n_hids n_epochs : Z) (X : tensor3 R) (labels : list Z)
  (lr_ w_ : Q) (p : Z) (idx_train_ idx_val_ : list Z)
  (lt lv la : list Q) (w w' : world R Net) :
  train G n_iters n_hids n_epochs X labels lr_ w_ p idx_train_ idx_val_ w
  = Some ((lt, lv, la), w') ->
  exists U log,
    unroll (features G) (P G) n_iters = Some U /\
    trace w' = trace w ++ [EvAdam lr_ w_] ++ concat (map e_trace log) /\
    Forall (epoch_ok U labels idx_train_ idx_val_) log /\
    (length log <= Z.to_nat n_epochs)%nat /\
    lt = map e_loss_train log /\
    lv = map e_loss_val log /\
    la = map e_acc_val log /\
    (forall k, (S k < length lv)%nat -> stop_rule p (take (S k) lv) = false) /\
    ((length log < Z.to_nat n_epochs)%nat -> stop_rule p lv = true) /\
    epochs_chain U labels idx_train_ idx_val_ (adam lr_ w_ (net w)) log (net w').
Proof.
  intros Hrun. unfold train in Hrun.
  apply bind_Some in Hrun as (U & wa & HU & Hrun).
  apply lift_Some in HU as (HU & ->).
  apply bind_Some in Hrun as (u & wb & Hc & Hrun).
  apply call_Some in Hc as (Ht & Hn).
  cbv beta zeta in Hrun.
  apply bind_Some in Hrun as (l' & wc & He & Hrun).
  apply ret_Some in Hrun as (Hr & ->). injection Hr as -> -> ->.
  apply (epochs_run p) in He
    as (log & Htr & Hlog & Hlen & Hlt & Hlv & Hla & Hno & Hlast & Hchain);
    [|apply es_after_init].
  simpl in Hlt, Hlv, Hla, Hno.
  exists U, log. split; [exact HU|].
  split; [rewrite Htr, Ht, <- app_assoc; reflexivity|].
  do 5 (split; [assumption|]). split; [|split].
  - intros k Hk. apply Hno; [lia|exact Hk].
  - intros Hk. apply Hlast. exact Hk.
  - rewrite <- Hn. exact Hchain.
Qed.



(** C2, as the code has it: [test] says stop exactly at an epoch whose
    validation loss fails to improve on the stored best (1000 until a
    loss goes below it) while the failures counted since the object was
    built, consecutive or not, outnumber the patience [p]; with [p >= 0]
    the first such epoch is the first at which that count exceeds [p];
    and [train] leaves its epoch loop at the first stop: no earlier epoch
    said stop, and a run that ends before [n_epochs] ends on a stop. *)
Theorem early_stop_rule `{Torch R Net, Scalar R} (p : Z) :
  (forall ls,
     verdicts p ls
     = Some (map (fun k => fails_at ls k && (p <? failures (take (S k) ls)))
               (seq 0 (length ls)))) /\
  (0 <= p ->
   forall ls vs k,
     verdicts p ls = Some vs -> (k < length ls)%nat ->
     p < failures (take (S k) ls) ->
     (forall j, (j < k)%nat -> failures (take (S j) ls) <= p) ->
     vs !! k = Some true /\
     forall j, (j < k)%nat -> vs !! j = Some false) /\
  (forall (G : globals R) n_iters n_hids n_epochs X labels lr_ w_
          idx_train_ idx_val_ lt lv la (w w' : world R Net),
     train G n_iters n_hids n_epochs X labels lr_ w_ p idx_train_ idx_val_ w
     = Some ((lt, lv, la), w') ->
     exists vs,
       verdicts p lv = Some vs /\ length vs = length lv /\
       (length lv <= Z.to_nat n_epochs)%nat /\
       (forall k, (S k < length lv)%nat -> vs !! k = Some false) /\
       ((length lv < Z.to_nat n_epochs)%nat -> last vs = Some true)).
Proof.
  assert (Hfa : forall ls k, (k < length ls)%nat ->
            stop_rule p (take (S k) ls)
            = fails_at ls k && (p <? failures (take (S k) ls))).
  { intros ls k Hk. unfold stop_rule. rewrite length_take_le by lia.
    simpl. rewrite Nat.sub_0_r. f_equal.
    rewrite <- (take_drop (S k) ls) at 2.
    apply eq_sym, fails_at_app. rewrite length_take_le; lia. }
  split; [|split].
  - intros ls. rewrite verdicts_stop_rule. f_equal.
    apply map_ext_in. intros k Hk. apply in_seq in Hk. apply Hfa. lia.
  - intros Hp ls vs k Hvs Hk Hover Hbefore.
    rewrite verdicts_stop_rule in Hvs. injection Hvs as <-. split.
    + rewrite list_lookup_fmap, lookup_seq_lt by lia. simpl. f_equal.
      apply first_crossing_fails; assumption.
    + intros j Hj. rewrite list_lookup_fmap, lookup_seq_lt by lia. simpl. f_equal.
      unfold stop_rule. apply andb_false_intro2. apply Z.ltb_ge. auto.
  - intros G n_iters n_hids n_epochs X labels lr_ w_ idx_train_ idx_val_
      lt lv la w w' Hrun.
    destruct (train_run G n_iters n_hids n_epochs X labels lr_ w_ p
                idx_train_ idx_val_ lt lv la w w' Hrun)
      as (U & log & HU & Htr & Hlog & Hlen & _ & Hlv & _ & Hno & Hlast & _).
    assert (Hl : length lv = length log) by (rewrite Hlv; apply length_map).
    eexists. split; [apply verdicts_stop_rule|].
    split; [rewrite length_map, length_seq; reflexivity|].
    split; [lia|]. split.
    + intros k Hk. rewrite list_lookup_fmap, lookup_seq_lt by lia. simpl.
      f_equal. apply Hno. exact Hk.
    + intros Hk. rewrite Hl in Hk. specialize (Hlast Hk). clear Hlv Hl.
      destruct (length lv) as [|m] eqn:Hm.
      * destruct lv; [|discriminate]. discriminate Hlast.
      * rewrite seq_S, map_app. cbn [map]. rewrite last_snoc. f_equal.
        cbn [Nat.add]. rewrite <- Hm, firstn_all. exact Hlast.
Qed.

Lemma early_stop_rule_witness :
  verdicts 1 [2000; 5; 6]%Q
  = Some (map (fun k => fails_at [2000; 5; 6]%Q k
                        && (1 <? failures (take (S k) [2000; 5; 6]%Q)))
            (seq 0 3)) /\
  ([false; false; true] !! 2%nat = Some true /\
   forall j, (j < 2)%nat -> [false; false; true] !! j = Some false) /\
  exists vs, verdicts 0 [1; 2]%Q = Some vs /\ last vs = Some true.
Proof.
  destruct (early_stop_rule (R := Z) (Net := Z) 1) as (Hall & Hfirst & _).
  destruct (early_stop_rule (R := Z) (Net := Z) 0) as (_ & _ & Htrain).
  split; [exact (Hall [2000; 5; 6]%Q)|]. split.
  - apply (Hfirst ltac:(lia) [2000; 5; 6]%Q [false; false; true] 2%nat).
    + reflexivity.
    + simpl. lia.
    + vm_compute. reflexivity.
    + intros [|[|j]] Hj; vm_compute; try discriminate. lia.
  - destruct (Htrain toy_globals 3 112 5 (Tensor3 (0, 0, 0)%nat []) [0; 1]
                (1 # 100)%Q (1 # 100)%Q [0] [1]
                [0; 1]%Q [1; 2]%Q [0; 0]%Q (World 0 []) toy_world)
      as (vs & Hvs & _ & _ & _ & Hlast).
    + reflexivity.
    + exists vs. split; [exact Hvs|]. apply Hlast. simpl. lia.
Defined.

(** C2 as stated fails: with patience 1 and validation losses 2000, 5, 6
    the third call of [test] says stop, although 5 improved on the best
    just before, so that at no epoch more than one consecutive epoch had
    failed to improve. *)
Lemma early_stop_not_consecutive :
  verdicts 1 [2000; 5; 6]%Q = Some [false; false; true] /\
  map (fun k => spec_stop 1 (take (S k) [2000; 5; 6]%Q)) (seq 0 3)
  = [false; false; false].
Proof. split; reflexivity. Qed.

Lemma forward_inputs_app {R} (tr tr' : list (event R)) :
  forward_inputs (tr ++ tr') = forward_inputs tr ++ forward_inputs tr'.
Proof. apply omap_app. Qed.

Lemma forward_inputs_log `{Torch R Net} (U : tensor3 R) (labels it iv : list Z)
  (log : list (epoch_log R)) :
  Forall (epoch_ok U labels it iv) log ->
  forward_inputs (concat (map e_trace log)) = replicate (2 * length log) U.
Proof.
  induction 1 as [|e log (outs & score & y & outs' & score' & y' & He) _ IH].
  - reflexivity.
  - cbn [map]. rewrite concat_cons, forward_inputs_app, IH.
    destruct He as (_ & _ & _ & _ & _ & _ & _ & ->).
    cbn [length]. replace (2 * S (length log))%nat with (2 + 2 * length log)%nat by lia.
    reflexivity.
Qed.



(** What a successful run of the script does. *)
Lemma script_run `{Torch R Net, Scalar R, Repo R Net}
  (argv : list string) (o : outcome) (w : world R Net) :
  script argv = Some (o, w) ->
  exists a d Pm U idx log outs,
    parse_args argv = Some a /\
    load_data (arg.dataset a) = Some d /\
    mm (deg_inv d) (adj d) = Some Pm /\
    split_idx 140 500 1000 (n_rows (features_ d)) = Some idx /\
    unroll (features_ d) Pm (arg.n_iter a) = Some U /\
    trace w = [EvAdam (arg.lr a) (arg.wd a)] ++ concat (map e_trace log)
              ++ [EvEvalMode; EvForward U outs] /\
    Forall (epoch_ok U (labels_ d) idx.1.1 idx.1.2) log /\
    (length log <= Z.to_nat (arg.n_iter a))%nat /\
    l_train o = map e_loss_train log /\
    l_val o = map e_loss_val log /\
    acc_val o = map e_acc_val log.
Proof.
  intros Hrun. unfold script in Hrun.
  destruct (parse_args argv) as [a|] eqn:Ha; [|discriminate].
  cbn [mbind option_bind] in Hrun.
  destruct (load_data (arg.dataset a)) as [d|] eqn:Hd; [|discriminate].
  cbn [mbind option_bind] in Hrun.
  destruct (mm (deg_inv d) (adj d)) as [Pm|] eqn:HP; [|discriminate].
  cbn [mbind option_bind] in Hrun.
  destruct (np_max (labels_ d)) as [m|]; [|discriminate].
  cbn [mbind option_bind] in Hrun.
  destruct (GRN _ _ _ _ _ _ _ _) as [grn|]; [|discriminate].
  cbn [mbind option_bind] in Hrun.
  destruct (split_idx 140 500 1000 (n_rows (features_ d)))
    as [[[it iv] ite]|] eqn:Hidx; [|discriminate].
  cbn [mbind option_bind] in Hrun.
  destruct (unroll (features_ d) Pm (config.n_iters (hyperparameters a)))
    as [U|] eqn:HU; [|discriminate].
  cbn [mbind option_bind] in Hrun.
  apply bind_Some in Hrun as ([[lt lv] la] & w1 & Htrain & Hrest).
  apply train_run in Htrain
    as (U' & log & HU' & Htr & Hlog & Hlen & Hlt & Hlv & Hla & _).
  simpl in HU', Hlen, Htr. unfold test in Hrest. run_inv. subst.
  unfold hyperparameters in HU. cbn [config.n_iters] in HU.
  assert (U' = U) by congruence. subst U'.
  eexists a, d, Pm, U, (it, iv, ite), log, _.
  repeat (split; [first [eassumption | reflexivity]|]).
  split; [|auto].
  repeat match goal with
         | Ht : trace _ = _ |- _ => rewrite Ht; clear Ht
         end.
  simpl. rewrite <- !app_assoc. reflexivity.
Qed.

(** C4: every forward pass of [train], in every epoch, is given the tensor
    [unroll] makes of the module-level features and propagation matrix
    with [n_iters] steps; in the script these are the loaded features and
    the normalised adjacency, and the forward pass of the final test gets
    the same tensor. *)
Theorem forward_inputs_unrolled `{Torch R Net, Scalar R, Repo R Net} :
  (forall (G : globals R) n_iters n_hids n_epochs X labels lr_ w_ p
          idx_train_ idx_val_ lt lv la (w w' : world R Net),
     train G n_iters n_hids n_epochs X labels lr_ w_ p idx_train_ idx_val_ w
     = Some ((lt, lv, la), w') ->
     exists U,
       unroll (features G) (P G) n_iters = Some U /\
       forward_inputs (trace w')
       = forward_inputs (trace w) ++ replicate (2 * length lv) U) /\
  (forall argv o (w : world R Net),
     script argv = Some (o, w) ->
     exists a d Pm U,
       parse_args argv = Some a /\
       load_data (arg.dataset a) = Some d /\
       mm (deg_inv d) (adj d) = Some Pm /\
       unroll (features_ d) Pm (arg.n_iter a) = Some U /\
       forward_inputs (trace w) = replicate (2 * length (l_val o) + 1) U).
Proof.
  split.
  - intros G n_iters n_hids n_epochs X labels lr_ w_ p idx_train_ idx_val_
      lt lv la w w' Hrun.
    apply train_run in Hrun
      as (U & log & HU & Htr & Hlog & _ & _ & Hlv & _).
    exists U. split; [exact HU|].
    rewrite Htr, !forward_inputs_app, (forward_inputs_log U _ _ _ log Hlog), Hlv.
    rewrite length_map. reflexivity.
  - intros argv o w Hrun.
    apply script_run in Hrun
      as (a & d & Pm & U & idx & log & outs & Ha & Hd & HP & _ & HU & Htr & Hlog
          & _ & _ & Hlv & _).
    exists a, d, Pm, U. repeat (split; [assumption|]).
    rewrite Htr, !forward_inputs_app, (forward_inputs_log U _ _ _ log Hlog), Hlv.
    rewrite length_map. simpl.
    rewrite <- replicate_cons_app, Nat.add_1_r. reflexivity.
Qed.

Lemma forward_inputs_unrolled_witness :
  exists U,
    unroll (features toy_globals) (P toy_globals) 3 = Some U /\
    forward_inputs (trace toy_world) = [] ++ replicate (2 * 2) U.
Proof.
  apply (proj1 (forward_inputs_unrolled (R := Z) (Net := Z))
           toy_globals 3 112 5 (Tensor3 (0, 0, 0)%nat []) [0; 1]
           (1 # 100)%Q (1 # 100)%Q 0 [0] [1]
           [0; 1]%Q [1; 2]%Q [0; 0]%Q (World 0 []) toy_world).
  reflexivity.
Defined.

(** C6: the result of [train] does not depend on its [X] argument: from
    the same world and with the other arguments equal, any two tensors
    give the same lists and the same final world. *)
Theorem train_ignores_X `{Torch R Net, Scalar R} (G : globals R)
  (n_iters n_hids n_epochs : Z) (X1 X2 : tensor3 R) (labels : list Z)
  (lr_ w_ : Q) (p : Z) (idx_train_ idx_val_ : list Z) (w : world R Net) :
  train G n_iters n_hids n_epochs X1 labels lr_ w_ p idx_train_ idx_val_ w
  = train G n_iters n_hids n_epochs X2 labels lr_ w_ p idx_train_ idx_val_ w.
Proof. reflexivity. Qed.







(** ** The stored best *)

Lemma test_best (s s' : earlystopping.self) (l : list Q) (b : bool) :
  earlystopping.test s l = Some (b, s') ->
  exists x, py_index l (-1) = Some x /\
    earlystopping.best s'
    = if Qltb x (earlystopping.best s) then x else earlystopping.best s.
Proof.
  unfold earlystopping.test. destruct (py_index l (-1)) as [x|]; [|discriminate].
  simpl. intros Ht. exists x. split; [reflexivity|].
  destruct (Qltb x (earlystopping.best s)).
  - injection Ht as _ <-. reflexivity.
  - destruct (_ <? _); injection Ht as _ <-; reflexivity.
Qed.

Lemma test_None (s : earlystopping.self) (l : list Q) :
  earlystopping.test s l = None -> py_index l (-1) = None.
Proof.
  unfold earlystopping.test. destruct (py_index l (-1)) as [x|]; [|reflexivity].
  simpl. destruct (Qltb _ _); [discriminate|]. destruct (_ <? _); discriminate.
Qed.

Lemma is_min_of_snoc (b x : Q) (L : list Q) :
  is_min_of b L -> is_min_of (if Qltb x b then x else b) (L ++ [x]).
Proof.
  intros [Hin Hle]. destruct (Qltb x b) eqn:E; split.
  - apply in_or_app. right. left. reflexivity.
  - apply Qltb_lt in E. apply Forall_app. split.
    + eapply Forall_impl; [exact Hle|]. intros y Hy. simpl in Hy. lra.
    + constructor; [lra|constructor].
  - apply in_or_app. left. exact Hin.
  - apply Qltb_ge in E. apply Forall_app. split; [exact Hle|].
    constructor; [exact E|constructor].
Qed.

Lemma after_calls_min (calls : list (list Q)) :
  forall (s : earlystopping.self) (L : list Q),
    is_min_of (earlystopping.best s) L ->
    is_min_of (earlystopping.best (after_calls s calls)) (L ++ submitted calls) /\
    (earlystopping.best (after_calls s calls) <= earlystopping.best s)%Q.
Proof.
  induction calls as [|l calls IH]; intros s L Hmin.
  - simpl. rewrite app_nil_r. split; [exact Hmin|lra].
  - unfold after_calls, submitted. simpl.
    fold (after_calls (match earlystopping.test s l with
                       | Some r => r.2 | None => s end) calls).
    fold (submitted calls).
    destruct (earlystopping.test s l) as [[b s']|] eqn:Ht.
    + apply test_best in Ht as (x & Hx & Hb). rewrite Hx. simpl.
      destruct (IH s' (L ++ [x])) as [Hm Hle].
      { rewrite Hb. apply is_min_of_snoc. exact Hmin. }
      rewrite <- app_assoc in Hm. split; [exact Hm|].
      rewrite Hb in Hle. destruct (Qltb x (earlystopping.best s)) eqn:E; [|exact Hle].
      apply Qltb_lt in E. lra.
    + apply test_None in Ht. rewrite Ht. simpl. apply IH. exact Hmin.
Qed.

(** C5, as the code has it: no call of [test] increases the stored best,
    and after any sequence of calls on a new object the stored best is the
    least among 1000, the value the object is built with, and the losses
    submitted so far. *)
Theorem best_is_running_min :
  (forall s l b s',
     earlystopping.test s l = Some (b, s') ->
     (earlystopping.best s' <= earlystopping.best s)%Q) /\
  (forall s calls,
     (earlystopping.best (after_calls s calls) <= earlystopping.best s)%Q) /\
  (forall p calls,
     is_min_of (earlystopping.best (after_calls (earlystopping.init p) calls))
       (1000%Q :: submitted calls)).
Proof.
  split; [|split].
  - intros s l b s' Ht. apply test_best in Ht as (x & _ & ->).
    destruct (Qltb x (earlystopping.best s)) eqn:E; [|lra].
    apply Qltb_lt in E. lra.
  - intros s calls.
    apply (after_calls_min calls s [earlystopping.best s]).
    split; [left; reflexivity|]. constructor; [lra|constructor].
  - intros p calls.
    apply (after_calls_min calls (earlystopping.init p) [1000%Q]).
    split; [left; reflexivity|]. constructor; [simpl; lra|constructor].
Qed.

Lemma best_is_running_min_witness :
  (earlystopping.best (after_calls (earlystopping.init 5) [[3]; [3; 2]; [3; 2; 4]]%Q)
   <= earlystopping.best (earlystopping.init 5))%Q /\
  is_min_of (earlystopping.best
               (after_calls (earlystopping.init 5) [[3]; [3; 2]; [3; 2; 4]]%Q))
    (1000%Q :: submitted [[3]; [3; 2]; [3; 2; 4]]%Q).
Proof.
  destruct best_is_running_min as (_ & Hle & Hmin).
  split; [apply Hle|apply Hmin].
Defined.

(** C5 as stated fails: after the single loss 2000 the stored best is
    still 1000, which is not among the losses submitted. *)
Lemma best_not_min_of_losses :
  submitted [[2000%Q]] = [2000%Q] /\
  earlystopping.best (after_calls (earlystopping.init 5) [[2000%Q]]) = 1000%Q /\
  ~ is_min_of (earlystopping.best (after_calls (earlystopping.init 5) [[2000%Q]]))
      (submitted [[2000%Q]]).
Proof.
  split; [reflexivity|]. split; [reflexivity|].
  intros [Hin _]. simpl in Hin. destruct Hin as [Heq|[]]. discriminate Heq.
Qed.

(** * Further properties *)

(** ** unroll: edge cases and composition *)

(** X1: without at least one step [unroll] raises, whatever the matrices:
    a negative count is refused by [torch.zeros], and with a count of zero
    the assignment to [outs[0]] is out of range. *)
Theorem unroll_nonpositive `{Scalar R} (X P : matrix R) (n_iters : Z) :
  n_iters <= 0 -> unroll X P n_iters = None.
Proof.
  intros Hn. unfold unroll, zeros.
  destruct (Z.ltb_spec n_iters 0) as [|Hge]; [reflexivity|].
  assert (n_iters = 0) by lia. subst n_iters. reflexivity.
Qed.

Lemma unroll_nonpositive_witness :
  unroll (Matrix 2 1 [[1]; [2]]) (Matrix 2 2 [[0; 1]; [1; 1]]) (-3) = None.
Proof.
  apply (unroll_nonpositive (Matrix 2 1 [[1]; [2]]) (Matrix 2 2 [[0; 1]; [1; 1]]) (-3)).
  lia.
Defined.

(** X2: with a single step the result is [X] alone and the propagation
    matrix is never used: any [P], of any shape, gives the same tensor. *)
Theorem unroll_single `{Scalar R} (X P : matrix R) :
  wf_matrix X ->
  unroll X P 1 = Some (Tensor3 (1%nat, n_rows X, n_cols X) [rows X]).
Proof.
  intros HX. unfold unroll, zeros. simpl.
  unfold setitem. simpl.
  rewrite (broadcast_to_same (n_rows X) (n_cols X) X) by (split; auto).
  reflexivity.
Qed.

Lemma unroll_single_witness :
  unroll (Matrix 2 1 [[1]; [2]]) (Matrix 5 7 []) 1
  = Some (Tensor3 (1, 2, 1)%nat [[[1]; [2]]]).
Proof.
  apply (unroll_single (Matrix 2 1 [[1]; [2]]) (Matrix 5 7 [])).
  split; simpl; repeat constructor.
Defined.

(** X3: from two steps on, a propagation matrix whose number of columns is
    not the number of nodes makes [unroll] raise. *)
Theorem unroll_mismatch `{Scalar R} (X P : matrix R) (n_iters : Z) :
  wf_matrix X -> 2 <= n_iters -> n_cols P <> n_rows X ->
  unroll X P n_iters = None.
Proof.
  intros HX Hn Hne. unfold unroll, zeros.
  destruct (Z.ltb_spec n_iters 0) as [|_]; [lia|]. simpl.
  unfold setitem at 1. simpl.
  destruct (Nat.ltb_spec 0 (Z.to_nat n_iters)) as [_|]; [|lia].
  rewrite (broadcast_to_same (n_rows X) (n_cols X) X) by (split; auto).
  simpl. unfold range.
  replace (Z.to_nat n_iters - 1)%nat with (S (Z.to_nat n_iters - 2)) by lia.
  simpl. unfold getitem. simpl.
  replace (Z.to_nat n_iters) with (S (Z.to_nat n_iters - 1)) by lia.
  simpl. unfold mm. simpl.
  destruct (Nat.eqb_spec (n_cols P) (n_rows X)) as [|_]; [congruence|].
  reflexivity.
Qed.

Lemma unroll_mismatch_witness :
  unroll (Matrix 2 1 [[1]; [2]]) (Matrix 1 1 [[1]]) 2 = None.
Proof.
  apply (unroll_mismatch (Matrix 2 1 [[1]; [2]]) (Matrix 1 1 [[1]]) 2).
  - split; simpl; repeat constructor.
  - lia.
  - simpl. lia.
Defined.

(** The slices of [unroll], all at once. *)
Lemma unroll_slices `{Scalar R} (X P : matrix R) (n f : nat) (n_iters : Z) :
  has_shape X n f -> has_shape P n n -> 1 <= n_iters ->
  unroll X P n_iters
  = Some (Tensor3 (Z.to_nat n_iters, n, f)
            (map (snapshot_rows P X) (seq 0 (Z.to_nat n_iters)))).
Proof.
  intros HX HP Hn.
  destruct (unroll_propagate X P n f n_iters HX HP Hn)
    as ([sh sl] & Hrun & Hsh & Hlen & Hsl).
  simpl in *. rewrite Hrun. subst sh. f_equal. f_equal.
  apply list_eq. intros i.
  rewrite list_lookup_fmap.
  destruct (decide (i < Z.to_nat n_iters)%nat) as [Hi|Hi].
  - rewrite lookup_seq_lt by lia. simpl.
    destruct (Hsl i Hi) as (M & HM & _ & Hg).
    unfold snapshot_rows. rewrite HM.
    unfold getitem in Hg. simpl in Hg.
    destruct (sl !! i) as [rs|]; [|discriminate].
    simpl in Hg. injection Hg as <-. reflexivity.
  - rewrite lookup_seq_ge by lia. simpl.
    apply lookup_ge_None. lia.
Qed.

(** X4: asking for more steps only adds snapshots: the slices of a shorter
    unrolling are the first slices of a longer one. *)
Theorem unroll_prefix `{Scalar R} (X P : matrix R) (n f : nat) (m k : Z) :
  has_shape X n f -> has_shape P n n -> 1 <= m -> m <= k ->
  exists o1 o2,
    unroll X P m = Some o1 /\ unroll X P k = Some o2 /\
    t_slices o1 = take (Z.to_nat m) (t_slices o2).
Proof.
  intros HX HP Hm Hk.
  rewrite (unroll_slices X P n f m HX HP Hm).
  rewrite (unroll_slices X P n f k HX HP) by lia.
  eexists _, _. split; [reflexivity|]. split; [reflexivity|]. simpl.
  replace (Z.to_nat k) with (Z.to_nat m + (Z.to_nat k - Z.to_nat m))%nat by lia.
  rewrite seq_app, map_app.
  rewrite take_app_length'; [reflexivity|].
  rewrite length_map, length_seq. reflexivity.
Qed.

Lemma unroll_prefix_witness :
  exists o1 o2,
    unroll (Matrix 2 1 [[1]; [2]]) (Matrix 2 2 [[0; 1]; [1; 1]]) 2 = Some o1 /\
    unroll (Matrix 2 1 [[1]; [2]]) (Matrix 2 2 [[0; 1]; [1; 1]]) 4 = Some o2 /\
    t_slices o1 = take (Z.to_nat 2) (t_slices o2).
Proof.
  apply (unroll_prefix (Matrix 2 1 [[1]; [2]]) (Matrix 2 2 [[0; 1]; [1; 1]]) 2 1 2 4).
  - repeat split; simpl; repeat constructor.
  - repeat split; simpl; repeat constructor.
  - lia.
  - lia.
Defined.

Lemma propagate_add `{Scalar R} (P X Xk : matrix R) (k i : nat) :
  propagate P k X = Some Xk ->
  propagate P i Xk = propagate P (i + k) X.
Proof.
  intros Hk. induction i as [|i IH]; simpl.
  - symmetry. exact Hk.
  - rewrite IH. reflexivity.
Qed.

(** X5: unrolling again from a snapshot continues the sequence: the
    unrolling of the [k]-th snapshot holds the slices of the unrolling of
    [X] from position [k] on. *)
Theorem unroll_continue `{Scalar R} (X P : matrix R) (n f : nat) (k : nat) (m : Z) :
  has_shape X n f -> has_shape P n n -> 1 <= m ->
  exists Xk o1 o2,
    propagate P k X = Some Xk /\
    unroll X P (Z.of_nat k + m) = Some o1 /\
    unroll Xk P m = Some o2 /\
    getitem o1 k = Some Xk /\
    t_slices o2 = drop k (t_slices o1).
Proof.
  intros HX HP Hm.
  destruct (propagate_has_shape P X n f k HP HX) as (Xk & HXk & HXks).
  exists Xk.
  rewrite (unroll_slices X P n f (Z.of_nat k + m) HX HP) by lia.
  rewrite (unroll_slices Xk P n f m HXks HP Hm).
  eexists _, _. split; [exact HXk|].
  split; [reflexivity|]. split; [reflexivity|].
  replace (Z.to_nat (Z.of_nat k + m)) with (k + Z.to_nat m)%nat by lia.
  split.
  - unfold getitem. simpl. rewrite list_lookup_fmap, lookup_seq_lt by lia.
    simpl. unfold snapshot_rows. rewrite HXk.
    destruct HXks as (_ & Hn & Hf). destruct Xk; simpl in *. congruence.
  - simpl. rewrite seq_app, map_app.
    rewrite drop_app_length' by (rewrite length_map, length_seq; reflexivity).
    cbn [Nat.add].
    replace (seq k (Z.to_nat m)) with (Nat.add k <$> seq 0 (Z.to_nat m))
      by (rewrite fmap_add_seq; f_equal; lia).
    rewrite <- list_fmap_compose.
    apply map_ext. intros i. unfold snapshot_rows. simpl.
    rewrite (propagate_add P X Xk k i HXk).
    replace (i + k)%nat with (k + i)%nat by lia. reflexivity.
Qed.

Lemma unroll_continue_witness :
  exists Xk o1 o2,
    propagate (Matrix 2 2 [[0; 1]; [1; 1]]) 2 (Matrix 2 1 [[1]; [2]]) = Some Xk /\
    unroll (Matrix 2 1 [[1]; [2]]) (Matrix 2 2 [[0; 1]; [1; 1]]) (Z.of_nat 2 + 2)
    = Some o1 /\
    unroll Xk (Matrix 2 2 [[0; 1]; [1; 1]]) 2 = Some o2 /\
    getitem o1 2 = Some Xk /\
    t_slices o2 = drop 2 (t_slices o1).
Proof.
  apply (unroll_continue (Matrix 2 1 [[1]; [2]]) (Matrix 2 2 [[0; 1]; [1; 1]]) 2 1 2 2).
  - repeat split; simpl; repeat constructor.
  - repeat split; simpl; repeat constructor.
  - lia.
Defined.

(** ** accuracy: what it depends on *)

Lemma argmax_from_map (g : Q -> Q) (l : list Q) :
  (forall a b, Qltb (g a) (g b) = Qltb a b) ->
  forall best besti i,
    argmax_from (g best) besti i (map g l) = argmax_from best besti i l.
Proof.
  intros Hg. induction l as [|x l IH]; intros best besti i; simpl.
  - reflexivity.
  - rewrite Hg. destruct (Qltb best x); apply IH.
Qed.

Lemma argmax_map (g : Q -> Q) (l : list Q) :
  (forall a b, Qltb (g a) (g b) = Qltb a b) ->
  argmax (map g l) = argmax l.
Proof.
  intros Hg. destruct l as [|x l]; simpl; [reflexivity|].
  rewrite (argmax_from_map g l Hg). reflexivity.
Qed.

(** X7: the accuracy depends only on the order of the scores within each
    row: a map that keeps every strict comparison (a shift, a positive
    scaling) applied to all scores leaves it unchanged, errors included. *)
Theorem accuracy_order_only (g : Q -> Q) (output : matrix Q) (labels : list Z) :
  (forall a b, Qltb (g a) (g b) = Qltb a b) ->
  accuracy (map_scores g output) labels = accuracy output labels.
Proof.
  intros Hg. unfold accuracy, max1_indices, map_scores. simpl.
  destruct (n_cols output =? 0)%nat; [reflexivity|].
  assert (Hm : mapM (fun r => Z.of_nat <$> argmax r) (map (map g) (rows output))
               = mapM (fun r => Z.of_nat <$> argmax r) (rows output)).
  { induction (rows output) as [|r rs IH]; [reflexivity|].
    simpl. rewrite (argmax_map g r Hg), IH. reflexivity. }
  rewrite Hm. reflexivity.
Qed.

Lemma Qltb_shift (c a b : Q) : Qltb (a + c) (b + c) = Qltb a b.
Proof.
  destruct (Qltb a b) eqn:E.
  - apply Qltb_lt in E. apply Qltb_lt. lra.
  - apply Qltb_ge in E. apply Qltb_ge. lra.
Qed.

Lemma accuracy_order_only_witness :
  accuracy (map_scores (fun x => x + 10)%Q (Matrix 3 2 [[1; 2]; [3; 1]; [2; 2]]%Q))
    [1; 0; 1]
  = accuracy (Matrix 3 2 [[1; 2]; [3; 1]; [2; 2]]%Q) [1; 0; 1].
Proof.
  apply (accuracy_order_only (fun x => x + 10)%Q
           (Matrix 3 2 [[1; 2]; [3; 1]; [2; 2]]%Q) [1; 0; 1]).
  intros a b. apply Qltb_shift.
Defined.

(** The value of [accuracy] on inputs of matching shapes. *)
Lemma accuracy_value (output : matrix Q) (labels : list Z) :
  wf_matrix output -> (0 < n_cols output)%nat ->
  labels <> [] -> n_rows output = length labels ->
  accuracy output labels
  = Some (inject_Z (Z.of_nat (hits output labels))
          / inject_Z (Z.of_nat (length labels)))%Q.
Proof.
  intros [Hlen Hrows] Hf Hne Hn.
  destruct (max1_indices_rows (rows output) (n_cols output) Hf Hrows)
    as (preds & Hm & Hz).
  assert (Hlp : length preds = length (rows output)).
  { symmetry. eapply length_mapM. exact Hm. }
  assert (Hpos : (0 < length labels)%nat).
  { destruct labels; [congruence|simpl; lia]. }
  unfold accuracy, max1_indices.
  destruct (Nat.eqb_spec (n_cols output) 0) as [|_]; [lia|].
  rewrite Hm. simpl. unfold tensor_eq.
  destruct (Nat.eqb_spec (length preds) (length labels)) as [_|Hd]; [|congruence].
  simpl. destruct (Nat.eqb_spec (length labels) 0) as [|_]; [lia|].
  rewrite Hz. reflexivity.
Qed.

Lemma count_true_all (l : list bool) :
  count_true l = length l <-> Forall (fun b => b = true) l.
Proof.
  unfold count_true. induction l as [|b l IH]; simpl.
  - split; [constructor|reflexivity].
  - rewrite filter_cons. destruct b.
    + destruct (decide (true = true)); [|congruence]. simpl.
      rewrite Forall_cons. split.
      * intros Hl. split; [reflexivity|]. apply IH. lia.
      * intros [_ Hl]. f_equal. apply IH. exact Hl.
    + destruct (decide (false = true)); [discriminate|].
      rewrite Forall_cons. split.
      * intros Hl. pose proof (length_filter (fun b => b = true) l). lia.
      * intros [Hf _]. discriminate.
Qed.

Lemma count_true_none (l : list bool) :
  count_true l = 0%nat <-> Forall (fun b => b = false) l.
Proof.
  unfold count_true. induction l as [|b l IH]; simpl.
  - split; [constructor|reflexivity].
  - rewrite filter_cons. destruct b.
    + destruct (decide (true = true)); [|congruence]. simpl.
      rewrite Forall_cons. split; [lia|]. intros [Hf _]. discriminate.
    + destruct (decide (false = true)); [discriminate|].
      rewrite Forall_cons, IH. tauto.
Qed.

Lemma Forall_zip_with_lookup {A B C} (ff : A -> B -> C) (Pr : C -> Prop)
  (l : list A) (k : list B) :
  Forall Pr (zip_with ff l k) <->
  forall i x y, l !! i = Some x -> k !! i = Some y -> Pr (ff x y).
Proof.
  rewrite Forall_lookup. split.
  - intros Hall i x y Hx Hy. apply (Hall i).
    rewrite lookup_zip_with, Hx, Hy. reflexivity.
  - intros Hall i z Hz. apply lookup_zip_with_Some in Hz as (x & y & -> & Hx & Hy).
    eauto.
Qed.

Lemma Qdiv_inject_one (h n : Z) :
  0 < n -> (inject_Z h / inject_Z n == 1)%Q <-> h = n.
Proof.
  intros Hn.
  assert (Hd : ~ (inject_Z n == 0)%Q).
  { change 0%Q with (inject_Z 0). rewrite inject_Z_injective. lia. }
  split.
  - intros Heq. apply inject_Z_injective.
    rewrite <- (Qmult_div_r (inject_Z h) (inject_Z n) Hd), Heq. ring.
  - intros ->. unfold Qdiv. apply Qmult_inv_r. exact Hd.
Qed.

Lemma Qdiv_inject_zero (h n : Z) :
  0 < n -> (inject_Z h / inject_Z n == 0)%Q <-> h = 0.
Proof.
  intros Hn.
  assert (Hd : ~ (inject_Z n == 0)%Q).
  { change 0%Q with (inject_Z 0). rewrite inject_Z_injective. lia. }
  split.
  - intros Heq. apply inject_Z_injective.
    rewrite <- (Qmult_div_r (inject_Z h) (inject_Z n) Hd), Heq. ring.
  - intros ->. unfold Qdiv. change (inject_Z 0) with 0%Q. ring.
Qed.

(** X8: on inputs of matching shapes the accuracy is 1 exactly when the
    arg-max class of every row is its label, and 0 exactly when that holds
    of no row. *)
Theorem accuracy_extremes (output : matrix Q) (labels : list Z) :
  wf_matrix output -> (0 < n_cols output)%nat ->
  labels <> [] -> n_rows output = length labels ->
  exists a,
    accuracy output labels = Some a /\
    ((a == 1)%Q <->
     forall i r y, rows output !! i = Some r -> labels !! i = Some y ->
                   row_hit r y = true) /\
    ((a == 0)%Q <->
     forall i r y, rows output !! i = Some r -> labels !! i = Some y ->
                   row_hit r y = false).
Proof.
  intros Hwf Hf Hne Hn.
  rewrite (accuracy_value output labels Hwf Hf Hne Hn).
  eexists. split; [reflexivity|].
  assert (Hpos : 0 < Z.of_nat (length labels)).
  { destruct labels; [congruence|simpl; lia]. }
  assert (Hzl : length (zip_with row_hit (rows output) labels) = length labels).
  { rewrite length_zip_with. destruct Hwf as [Hl _]. lia. }
  pose proof (Forall_zip_with_lookup row_hit (fun b => b = true)
                (rows output) labels) as Hall.
  pose proof (Forall_zip_with_lookup row_hit (fun b => b = false)
                (rows output) labels) as Hnone.
  simpl in Hall, Hnone. split.
  - rewrite (Qdiv_inject_one _ _ Hpos), <- Hall, <- count_true_all, Hzl.
    unfold hits. lia.
  - rewrite (Qdiv_inject_zero _ _ Hpos), <- Hnone, <- count_true_none.
    unfold hits. lia.
Qed.

Lemma accuracy_extremes_witness :
  exists a,
    accuracy (Matrix 2 2 [[1; 2]; [3; 1]]%Q) [1; 0] = Some a /\
    ((a == 1)%Q <->
     forall i r y, rows (Matrix 2 2 [[1; 2]; [3; 1]]%Q) !! i = Some r ->
                   [1; 0] !! i = Some y -> row_hit r y = true) /\
    ((a == 0)%Q <->
     forall i r y, rows (Matrix 2 2 [[1; 2]; [3; 1]]%Q) !! i = Some r ->
                   [1; 0] !! i = Some y -> row_hit r y = false).
Proof.
  apply (accuracy_extremes (Matrix 2 2 [[1; 2]; [3; 1]]%Q) [1; 0]).
  - split; simpl; repeat constructor.
  - simpl. lia.
  - discriminate.
  - reflexivity.
Defined.

(** X9: when the number of rows and the number of labels differ and
    neither is one, the comparison of predictions and labels cannot be
    broadcast and [accuracy] raises. *)
Theorem accuracy_length_mismatch (output : matrix Q) (labels : list Z) :
  wf_matrix output -> (0 < n_cols output)%nat ->
  n_rows output <> length labels ->
  n_rows output <> 1%nat -> length labels <> 1%nat ->
  accuracy output labels = None.
Proof.
  intros [Hlen Hrows] Hf Hne Hr1 Hl1.
  destruct (max1_indices_rows (rows output) (n_cols output) Hf Hrows)
    as (preds & Hm & _).
  assert (Hlp : length preds = n_rows output).
  { rewrite <- Hlen. symmetry. eapply length_mapM. exact Hm. }
  unfold accuracy, max1_indices.
  destruct (Nat.eqb_spec (n_cols output) 0) as [|_]; [lia|].
  rewrite Hm. simpl. unfold tensor_eq.
  destruct (Nat.eqb_spec (length preds) (length labels)) as [|_]; [lia|].
  destruct preds as [|x [|x' preds]]; simpl in Hlp; try lia;
    destruct labels as [|y [|y' labels]]; simpl in Hl1; try lia; reflexivity.
Qed.

Lemma accuracy_length_mismatch_witness :
  accuracy (Matrix 3 2 [[1; 2]; [3; 1]; [2; 2]]%Q) [1; 0] = None.
Proof.
  apply (accuracy_length_mismatch (Matrix 3 2 [[1; 2]; [3; 1]; [2; 2]]%Q) [1; 0]).
  - split; simpl; repeat constructor.
  - simpl. lia.
  - simpl. lia.
  - simpl. lia.
  - simpl. lia.
Defined.

(** ** earlystopping: what a call looks at and when it says stop *)

(** X10: [test] looks at the last entry of its list only: the earlier
    entries never change the verdict nor the object. *)
Theorem test_last_only (s : earlystopping.self) (l : list Q) (x : Q) :
  earlystopping.test s (l ++ [x]) = earlystopping.test s [x].
Proof.
  unfold earlystopping.test.
  rewrite py_index_last. change [x] with ([] ++ [x]).
  rewrite py_index_last. reflexivity.
Qed.

(** X11: [test] raises exactly on the empty list. *)
Theorem test_raises_iff_empty (s : earlystopping.self) (l : list Q) :
  earlystopping.test s l = None <-> l = [].
Proof.
  split.
  - intros Hn. apply test_None in Hn.
    destruct l as [|y l] using rev_ind; [reflexivity|].
    rewrite py_index_last in Hn. discriminate.
  - intros ->. unfold earlystopping.test. rewrite py_index_nil. reflexivity.
Qed.

Lemma test_counter (s s' : earlystopping.self) (l : list Q) (b : bool) :
  earlystopping.test s l = Some (b, s') ->
  earlystopping.patience s' = earlystopping.patience s /\
  earlystopping.t s <= earlystopping.t s' /\
  (b = true -> earlystopping.patience s' < earlystopping.t s').
Proof.
  unfold earlystopping.test. destruct (py_index l (-1)) as [x|]; [|discriminate].
  simpl. destruct (Qltb x (earlystopping.best s)).
  - intros [= <- <-]. simpl. repeat split; try lia; try discriminate.
  - destruct (Z.ltb_spec (earlystopping.patience s) (earlystopping.t s + 1));
      intros [= <- <-]; simpl; repeat split; try lia; try discriminate.
Qed.

Lemma after_calls_counter (calls : list (list Q)) :
  forall s,
    earlystopping.patience (after_calls s calls) = earlystopping.patience s /\
    earlystopping.t s <= earlystopping.t (after_calls s calls).
Proof.
  induction calls as [|l calls IH]; intros s.
  - simpl. split; [reflexivity|lia].
  - unfold after_calls. simpl.
    fold (after_calls (match earlystopping.test s l with
                       | Some r => r.2 | None => s end) calls).
    destruct (earlystopping.test s l) as [[b s']|] eqn:Ht; simpl.
    + apply test_counter in Ht as (Hp & Ht' & _).
      destruct (IH s') as [Hp' Ht'']. split; [congruence|lia].
    + apply IH.
Qed.

(** X12: once [test] has said stop, every later call whose loss does not
    improve on the stored best says stop again, whatever was submitted in
    between; a later call whose loss does improve is still answered with
    False. *)
Theorem stop_is_repeated (s0 s : earlystopping.self) (l0 : list Q)
  (calls : list (list Q)) (l : list Q) (x : Q) :
  earlystopping.test s0 l0 = Some (true, s) ->
  py_index l (-1) = Some x ->
  fst <$> earlystopping.test (after_calls s calls) l
  = Some (negb (Qltb x (earlystopping.best (after_calls s calls)))).
Proof.
  intros Hstop Hx. apply test_counter in Hstop as (_ & _ & Hover).
  specialize (Hover eq_refl).
  destruct (after_calls_counter calls s) as [Hp Ht].
  unfold earlystopping.test. rewrite Hx. simpl.
  destruct (Qltb x (earlystopping.best (after_calls s calls))); [reflexivity|].
  simpl.
  destruct (Z.ltb_spec (earlystopping.patience (after_calls s calls))
              (earlystopping.t (after_calls s calls) + 1)); [reflexivity|lia].
Qed.

Lemma stop_is_repeated_witness :
  fst <$> earlystopping.test
            (after_calls
               {| earlystopping.best := 1000; earlystopping.patience := 0;
                  earlystopping.t := 1 |} [[5]; [5; 7]]%Q) [5; 7; 6]%Q
  = Some (negb (Qltb 6 (earlystopping.best
                          (after_calls
                             {| earlystopping.best := 1000;
                                earlystopping.patience := 0;
                                earlystopping.t := 1 |} [[5]; [5; 7]]%Q)))).
Proof.
  apply (stop_is_repeated (earlystopping.init 0) _ [2000%Q] [[5]; [5; 7]]%Q
           [5; 7; 6]%Q 6%Q).
  - reflexivity.
  - reflexivity.
Defined.

Lemma all_high (l : list Q) :
  Forall (fun x => (1000 <= x)%Q) l ->
  running_best l = 1000%Q /\ failures l = Z.of_nat (length l).
Proof.
  induction l as [|x l IH] using rev_ind; intros Hall.
  - split; reflexivity.
  - apply Forall_app in Hall as [Hl Hx]. apply Forall_inv in Hx.
    destruct (IH Hl) as [Hb Hf].
    rewrite running_best_snoc, failures_snoc, Hb, Hf, length_app.
    apply Qltb_ge in Hx. rewrite Hx. split; [reflexivity|]. simpl. lia.
Qed.

(** X13: validation losses that never get below 1000 all count as
    failures, improving or not: the verdict of epoch [k] (from 0) is True
    exactly when [k + 1] exceeds the patience. *)
Theorem high_losses_stop (p : Z) (ls : list Q) :
  Forall (fun x => (1000 <= x)%Q) ls ->
  verdicts p ls
  = Some (map (fun k => p <? Z.of_nat k + 1) (seq 0 (length ls))).
Proof.
  intros Hall. rewrite verdicts_stop_rule. f_equal.
  apply map_ext_in. intros k Hk. apply in_seq in Hk.
  destruct (lookup_lt_is_Some_2 ls k) as (x & Hx); [lia|].
  rewrite (take_S_r ls k x Hx).
  assert (Hpre : Forall (fun x => (1000 <= x)%Q) (take k ls)).
  { apply Forall_take. exact Hall. }
  assert (Hxh : (1000 <= x)%Q).
  { rewrite Forall_lookup in Hall. exact (Hall k x Hx). }
  destruct (all_high (take k ls) Hpre) as [Hb Hf].
  unfold stop_rule. rewrite length_app. simpl. rewrite Nat.add_sub.
  rewrite fails_at_last, failures_snoc, Hb, Hf.
  apply Qltb_ge in Hxh. rewrite Hxh. simpl.
  rewrite length_take_le by lia. reflexivity.
Qed.

Lemma high_losses_stop_witness :
  verdicts 1 [3000; 2000; 1500]%Q
  = Some (map (fun k => 1 <? Z.of_nat k + 1) (seq 0 (length [3000; 2000; 1500]%Q))).
Proof.
  apply (high_losses_stop 1 [3000; 2000; 1500]%Q).
  repeat constructor; discriminate.
Defined.

Lemma decreasing_prefix (pre rest : list Q) :
  forall b, decreasing_from b (pre ++ rest) -> decreasing_from b pre.
Proof.
  induction pre as [|y pre IH]; intros b Hd; simpl in *; [exact I|].
  destruct Hd as [Hy Hd]. split; [exact Hy|]. apply IH. exact Hd.
Qed.

Lemma decreasing_improves (pre : list Q) (x : Q) :
  forall b, decreasing_from b (pre ++ [x]) ->
    Qltb x (foldl (fun b x => if Qltb x b then x else b) b pre) = true.
Proof.
  induction pre as [|y pre IH]; intros b Hd; simpl in *.
  - apply Qltb_lt. tauto.
  - destruct Hd as [Hy Hd]. apply Qltb_lt in Hy. rewrite Hy. apply IH. exact Hd.
Qed.

(** X14: while every validation loss is below the one before it, and the
    first below 1000, [test] never says stop, whatever the patience. *)
Theorem improving_never_stops (p : Z) (ls : list Q) :
  decreasing_from 1000 ls ->
  verdicts p ls = Some (replicate (length ls) false).
Proof.
  intros Hd. rewrite verdicts_stop_rule. f_equal.
  apply list_eq. intros k. rewrite list_lookup_fmap.
  destruct (decide (k < length ls)%nat) as [Hk|Hk].
  - rewrite lookup_seq_lt, lookup_replicate_2 by lia. simpl. f_equal.
    destruct (lookup_lt_is_Some_2 ls k Hk) as (x & Hx).
    rewrite (take_S_r ls k x Hx).
    unfold stop_rule. rewrite length_app. simpl. rewrite Nat.add_sub.
    rewrite fails_at_last. unfold running_best.
    rewrite (decreasing_improves (take k ls) x 1000%Q); [reflexivity|].
    rewrite <- (take_S_r ls k x Hx).
    apply (decreasing_prefix _ (drop (S k) ls)). rewrite take_drop. exact Hd.
  - rewrite lookup_seq_ge by lia. symmetry.
    apply lookup_ge_None. rewrite length_replicate. lia.
Qed.

Lemma improving_never_stops_witness :
  verdicts (-1) [3; 2; 1]%Q = Some (replicate (length [3; 2; 1]%Q) false).
Proof.
  apply (improving_never_stops (-1) [3; 2; 1]%Q).
  simpl. repeat split.
Defined.

(** ** train, test and the script *)

Lemma failures_le_length (ls : list Q) : failures ls <= Z.of_nat (length ls).
Proof.
  unfold failures.
  pose proof (length_filter (fun k => fails_at ls k = true) (seq 0 (length ls))) as Hle.
  rewrite length_seq in Hle. lia.
Qed.

Lemma stop_rule_true (p : Z) (ls : list Q) :
  stop_rule p ls = true ->
  p + 1 <= Z.of_nat (length ls) /\
  exists pre x, ls = pre ++ [x] /\ (running_best pre <= x)%Q.
Proof.
  unfold stop_rule. intros Hs. apply andb_prop in Hs as [Hfail Hover].
  apply Z.ltb_lt in Hover. pose proof (failures_le_length ls). split; [lia|].
  destruct ls as [|x pre] using rev_ind.
  - unfold failures in Hover. simpl in Hover. discriminate Hfail.
  - exists pre, x. split; [reflexivity|].
    rewrite length_app in Hfail. simpl in Hfail. rewrite Nat.add_sub in Hfail.
    rewrite fails_at_last in Hfail. apply negb_true_iff, Qltb_ge in Hfail.
    exact Hfail.
Qed.

(** X15: [train] never stops early before the patience is used up: a run
    that ends with fewer than [n_epochs] epochs has run at least [p + 1]
    of them. *)
Theorem train_patience_epochs `{Torch R Net, Scalar R} (G : globals R)
  (n_iters n_hids n_epochs : Z) (X : tensor3 R) (labels : list Z)
  (lr_ w_ : Q) (p : Z) (idx_train_ idx_val_ : list Z)
  (lt lv la : list Q) (w w' : world R Net) :
  train G n_iters n_hids n_epochs X labels lr_ w_ p idx_train_ idx_val_ w
  = Some ((lt, lv, la), w') ->
  Z.of_nat (length lv) < n_epochs ->
  p + 1 <= Z.of_nat (length lv).
Proof.
  intros Hrun Hshort.
  apply train_run in Hrun
    as (U & log & _ & _ & _ & _ & _ & Hlv & _ & _ & Hlast & _).
  assert (Hl : length lv = length log) by (rewrite Hlv; apply length_map).
  apply stop_rule_true. apply Hlast. lia.
Qed.

Lemma train_patience_epochs_witness : 0 + 1 <= Z.of_nat (length [1; 2]%Q).
Proof.
  apply (train_patience_epochs toy_globals 3 112 5 (Tensor3 (0, 0, 0)%nat [])
           [0; 1] (1 # 100)%Q (1 # 100)%Q 0 [0] [1]
           [0; 1]%Q [1; 2]%Q [0; 0]%Q (World 0 []) toy_world).
  - reflexivity.
  - simpl. lia.
Defined.

(** X16: [train] stops early only on an epoch that fails to improve: in a
    run that ends with fewer than [n_epochs] epochs, the last validation
    loss is not below the best of the earlier ones and of 1000. *)
Theorem train_stops_on_failure `{Torch R Net, Scalar R} (G : globals R)
  (n_iters n_hids n_epochs : Z) (X : tensor3 R) (labels : list Z)
  (lr_ w_ : Q) (p : Z) (idx_train_ idx_val_ : list Z)
  (lt lv la : list Q) (w w' : world R Net) :
  train G n_iters n_hids n_epochs X labels lr_ w_ p idx_train_ idx_val_ w
  = Some ((lt, lv, la), w') ->
  Z.of_nat (length lv) < n_epochs ->
  exists pre x, lv = pre ++ [x] /\ (running_best pre <= x)%Q.
Proof.
  intros Hrun Hshort.
  apply train_run in Hrun
    as (U & log & _ & _ & _ & _ & _ & Hlv & _ & _ & Hlast & _).
  assert (Hl : length lv = length log) by (rewrite Hlv; apply length_map).
  apply (stop_rule_true p). apply Hlast. lia.
Qed.

Lemma train_stops_on_failure_witness :
  exists pre x, [1; 2]%Q = pre ++ [x] /\ (running_best pre <= x)%Q.
Proof.
  apply (train_stops_on_failure toy_globals 3 112 5 (Tensor3 (0, 0, 0)%nat [])
           [0; 1] (1 # 100)%Q (1 # 100)%Q 0 [0] [1]
           [0; 1]%Q [1; 2]%Q [0; 0]%Q (World 0 []) toy_world).
  - reflexivity.
  - simpl. lia.
Defined.



Lemma unroll_raises_nonpositive `{Scalar R} (X P : matrix R) (n_iters : Z) :
  n_iters <= 0 -> unroll X P n_iters = None.
Proof.
  intros Hn. unfold unroll, zeros.
  destruct (Z.ltb_spec n_iters 0) as [|Hge]; [reflexivity|].
  assert (n_iters = 0) by lia. subst n_iters. reflexivity.
Qed.

(** X18: the script cannot run with a step count that is not positive:
    for a command line that parses to [n_iter <= 0], the call
    [unroll(features, P, n_iters)] the script makes with its
    hyperparameters raises whatever the features and the propagation
    matrix, and the script yields no outcome, whatever the data and the
    model. *)
Theorem script_needs_steps `{Torch R Net, Scalar R, Repo R Net}
  (argv : list string) (a : arg.t) :
  parse_args argv = Some a -> arg.n_iter a <= 0 ->
  (forall features P : matrix R,
     unroll features P (config.n_iters (hyperparameters a)) = None) /\
  script argv = None.
Proof.
  intros Ha Hn. split.
  { intros features P. apply unroll_raises_nonpositive. exact Hn. }
  unfold script. rewrite Ha. cbn [mbind option_bind].
  destruct (load_data (arg.dataset a)) as [d|]; [|reflexivity].
  cbn [mbind option_bind].
  destruct (mm (deg_inv d) (adj d)) as [Pm|]; [|reflexivity].
  cbn [mbind option_bind].
  destruct (np_max (labels_ d)) as [m|]; [|reflexivity].
  cbn [mbind option_bind].
  destruct (GRN _ _ _ _ _ _ _ _) as [grn|]; [|reflexivity].
  cbn [mbind option_bind].
  destruct (split_idx 140 500 1000 (n_rows (features_ d)))
    as [[[it iv] ite]|]; [|reflexivity].
  cbn [mbind option_bind].
  unfold hyperparameters. cbn [config.n_iters].
  rewrite (unroll_raises_nonpositive (features_ d) Pm (arg.n_iter a) Hn).
  reflexivity.
Qed.

Lemma script_needs_steps_witness :
  (forall features P : matrix Z,
     unroll features P
       (config.n_iters
          (hyperparameters
             (arg.T (1 # 100) (1 # 100) 112 0 "cora" 5 (2 # 10) (2 # 10) (4 # 10))))
     = None) /\
  @script Z Z toy_torch Z_scalar digits_repo ["--n_iter"; "0"]%string = None.
Proof.
  apply (@script_needs_steps Z Z toy_torch Z_scalar digits_repo
           ["--n_iter"; "0"]%string
           (arg.T (1 # 100) (1 # 100) 112 0 "cora" 5 (2 # 10) (2 # 10) (4 # 10))).
  - reflexivity.
  - simpl. lia.
Defined.

Lemma foldl_max_spec (l : list Z) :
  forall x, x <= foldl Z.max x l /\
            Forall (fun y => y <= foldl Z.max x l) l /\
            In (foldl Z.max x l) (x :: l).
Proof.
  induction l as [|y l IH]; intros x; simpl.
  - split; [lia|]. split; [constructor|]. left. reflexivity.
  - destruct (IH (Z.max x y)) as (Hx & Hall & Hin). split; [lia|]. split.
    + constructor; [lia|exact Hall].
    + destruct Hin as [Heq|Hin]; [|right; right; exact Hin].
      rewrite <- Heq. destruct (Z.max_spec x y) as [[_ ->]|[_ ->]]; auto.
Qed.

(** X20: the number of classes the script computes covers every label:
    [np.max(labels_)] is one of the labels and none is larger, so every
    label is below [n_class]; with no label at all it raises. *)
Theorem np_max_covers (l : list Z) :
  (l = [] -> np_max l = None) /\
  (forall m, np_max l = Some m ->
     In m l /\ Forall (fun y => y < m + 1) l).
Proof.
  split; [intros ->; reflexivity|].
  intros m Hm. destruct l as [|x l]; [discriminate|].
  simpl in Hm. injection Hm as <-.
  destruct (foldl_max_spec l x) as (Hx & Hall & Hin).
  split; [exact Hin|]. constructor; [lia|].
  eapply Forall_impl; [exact Hall|]. intros y Hy. simpl in Hy. lia.
Qed.

Lemma py_index_range {A} (l : list A) (i : Z) :
  py_index l i = None <->
  i < - Z.of_nat (length l) \/ Z.of_nat (length l) <= i.
Proof.
  unfold py_index.
  destruct (Z.leb_spec 0 i) as [Hi|Hi].
  - rewrite lookup_ge_None. lia.
  - destruct (Z.leb_spec (- Z.of_nat (length l)) i) as [Hj|Hj].
    + rewrite lookup_ge_None. lia.
    + split; [lia|reflexivity].
Qed.

(** X21: indexing with an index tensor, as in [outs[idx]] and
    [labels[idx]], raises exactly when some index lies outside
    [[-n, n)] for [n] entries; otherwise it yields one entry per index,
    each taken from the indexed list. *)
Theorem index_select_range {A} (l : list A) (idx : list Z) :
  (index_select l idx = None <->
   Exists (fun i => i < - Z.of_nat (length l) \/ Z.of_nat (length l) <= i) idx) /\
  (forall r, index_select l idx = Some r ->
     length r = length idx /\ Forall (fun x => In x l) r).
Proof.
  unfold index_select. split.
  - rewrite mapM_None, !Exists_exists.
    split; intros (i & Hin & Hi); exists i; (split; [exact Hin|]);
      apply py_index_range; exact Hi.
  - intros r Hr. split; [symmetry; eapply length_mapM; exact Hr|].
    apply mapM_Some_1 in Hr.
    induction Hr as [|i x idx r Hix _ IH]; constructor; [|exact IH].
    unfold py_index in Hix.
    destruct (0 <=? i); [|destruct (_ <=? i); [|discriminate]];
      apply list_elem_of_In; eapply list_elem_of_lookup_2; exact Hix.
Qed.

(** What a successful run of the script tells about its early stop. *)
Lemma script_run_stop `{Torch R Net, Scalar R, Repo R Net}
  (argv : list string) (o : outcome) (w : world R Net) :
  script argv = Some (o, w) ->
  exists a,
    parse_args argv = Some a /\
    1 <= arg.n_iter a /\
    (length (l_val o) <= Z.to_nat (arg.n_iter a))%nat /\
    ((length (l_val o) < Z.to_nat (arg.n_iter a))%nat ->
     stop_rule (arg.ps a) (l_val o) = true).
Proof.
  intros Hrun. unfold script in Hrun.
  destruct (parse_args argv) as [a|] eqn:Ha; [|discriminate].
  cbn [mbind option_bind] in Hrun.
  destruct (load_data (arg.dataset a)) as [d|]; [|discriminate].
  cbn [mbind option_bind] in Hrun.
  destruct (mm (deg_inv d) (adj d)) as [Pm|]; [|discriminate].
  cbn [mbind option_bind] in Hrun.
  destruct (np_max (labels_ d)) as [m|]; [|discriminate].
  cbn [mbind option_bind] in Hrun.
  destruct (GRN _ _ _ _ _ _ _ _) as [grn|]; [|discriminate].
  cbn [mbind option_bind] in Hrun.
  destruct (split_idx 140 500 1000 (n_rows (features_ d)))
    as [[[it iv] ite]|]; [|discriminate].
  cbn [mbind option_bind] in Hrun.
  destruct (unroll (features_ d) Pm (config.n_iters (hyperparameters a)))
    as [U|] eqn:HU; [|discriminate].
  cbn [mbind option_bind] in Hrun.
  unfold hyperparameters in HU. cbn [config.n_iters] in HU.
  apply bind_Some in Hrun as ([[lt lv] la] & w1 & Htrain & Hrest).
  apply train_run in Htrain
    as (U' & log & _ & _ & _ & Hlen & _ & Hlv & _ & _ & Hlast & _).
  apply bind_Some in Hrest as (r' & w2 & _ & Hret).
  apply ret_Some in Hret as (-> & _). simpl in *.
  assert (Hl : length lv = length log) by (rewrite Hlv; apply length_map).
  exists a. split; [reflexivity|]. split.
  - destruct (Z.le_gt_cases (arg.n_iter a) 0) as [Hle|Hgt]; [|lia].
    rewrite (unroll_raises_nonpositive (features_ d) Pm _ Hle) in HU.
    discriminate.
  - split; [lia|]. intros Hk. apply Hlast. lia.
Qed.

(** X22: a run of the script trains for at least [min(n_iter, ps + 1)]
    and at most [n_iter] epochs: between 6 and 9 under the defaults. *)
Theorem script_epoch_range `{Torch R Net, Scalar R, Repo R Net}
  (argv : list string) (o : outcome) (w : world R Net) :
  script argv = Some (o, w) ->
  exists a,
    parse_args argv = Some a /\
    Z.min (arg.n_iter a) (arg.ps a + 1) <= Z.of_nat (length (l_val o)) /\
    Z.of_nat (length (l_val o)) <= arg.n_iter a /\
    (argv = [] -> 6 <= Z.of_nat (length (l_val o)) <= 9).
Proof.
  intros Hrun.
  apply script_run_stop in Hrun as (a & Ha & Hpos & Hle & Hstop).
  assert (Hmin : Z.min (arg.n_iter a) (arg.ps a + 1) <= Z.of_nat (length (l_val o))).
  { destruct (decide (length (l_val o) < Z.to_nat (arg.n_iter a))%nat) as [Hk|Hk].
    - apply Hstop, stop_rule_true in Hk as [Hp _]. lia.
    - lia. }
  exists a. split; [exact Ha|]. split; [exact Hmin|]. split; [lia|].
  intros ->. injection Ha as <-. simpl in *. lia.
Qed.

Lemma script_epoch_range_witness :
  exists a,
    parse_args (R := Z) (Net := Z) [] = Some a /\
    Z.min (arg.n_iter a) (arg.ps a + 1) <= Z.of_nat (length (l_val toy_outcome)) /\
    Z.of_nat (length (l_val toy_outcome)) <= arg.n_iter a /\
    (@nil string = [] -> 6 <= Z.of_nat (length (l_val toy_outcome)) <= 9).
Proof.
  apply (script_epoch_range (R := Z) (Net := Z) [] toy_outcome toy_script_world).
  vm_compute. reflexivity.
Defined.

Lemma np_max_covers_witness :
  In 2 [0; 2; 1] /\ Forall (fun y => y < 2 + 1) [0; 2; 1].
Proof.
  apply (proj2 (np_max_covers [0; 2; 1]) 2). reflexivity.
Defined.

Lemma index_select_range_witness :
  length [30; 10] = length [-1; 0] /\ Forall (fun x => In x [10; 20; 30]) [30; 10].
Proof.
  apply (proj2 (index_select_range [10; 20; 30] [-1; 0]) [30; 10]). reflexivity.
Defined.
